(** * Birdland: random walks on the user-item bipartite graph

    A shallow embedding of [bird.go] (package [birdland]) and the proofs of
    the properties stated about it.

    Conventions of the embedding.
    - A Go [int] is a [Z].  The program never does arithmetic on item or user
      indices: it only compares them and uses them as slice indices, so no
      wrap-around is reachable.
    - A Go [float64] is a primitive binary64 [float].
    - A slice is a [list]; [nil] and the empty slice are both [[]].
    - A run-time panic (index out of range, [make] with a negative length,
      [Intn] with a non-positive bound) is the [Panic] branch of [exec].
    - A Go [error] value is an [option error], [None] being [nil].
    - The generator behind [*rand.Rand] is the only mutable state; it is
      threaded explicitly through every function that draws from it.
    - [*BirdCfg] is a configuration value: the pointer is taken to be
      non-nil and the configuration is not changed after construction. *)

From Stdlib Require Import ZArith Lia Bool String.
From Stdlib Require Import Floats.PrimFloat Numbers.Cyclic.Int63.Uint63.
From stdpp Require Import base tactics option list.
From Stdlib Require Import Sorted.

Open Scope Z_scope.

(** ** Panics and the two monads *)

Inductive panic : Type :=
| IndexOutOfRange (i : Z) (len : nat)
| MakeSliceLenOutOfRange (n : Z)
| IntnInvalidArgument (n : Z).

Inductive exec (A : Type) : Type :=
| Val (a : A)
| Panic (p : panic).
Arguments Val {A} a.
Arguments Panic {A} p.

Definition bindE {A B} (c : exec A) (k : A -> exec B) : exec B :=
  match c with
  | Val a => k a
  | Panic p => Panic p
  end.

Notation "'let!' x ':=' c 'in' k" := (bindE c (fun x => k))
  (at level 10, x pattern, c at level 100, k at level 200).

(** [l[i]] for a Go slice: panics outside [0, len(l)). *)
Definition index {A} (l : list A) (i : Z) : exec A :=
  if i <? 0 then Panic (IndexOutOfRange i (length l))
  else match l !! Z.to_nat i with
       | Some x => Val x
       | None => Panic (IndexOutOfRange i (length l))
       end.

(** [l[i] = x] for a Go slice: panics outside [0, len(l)). *)
Definition store {A} (l : list A) (i : Z) (x : A) : exec (list A) :=
  if (i <? 0) || (Z.of_nat (length l) <=? i)
  then Panic (IndexOutOfRange i (length l))
  else Val (<[Z.to_nat i := x]> l).

(** [make([]T, n)]: [n] zero values; panics when [n] is negative.  The
    runtime also refuses a length beyond what it can allocate, with the same
    panic; where that limit lies depends on the platform and on the memory
    left, and it is not modelled: here a length that is not negative always
    gives a slice.  Statements about panics are therefore made by kind, and
    hold whatever lengths [make] refuses. *)
Definition make {A} (zero : A) (n : Z) : exec (list A) :=
  if n <? 0 then Panic (MakeSliceLenOutOfRange n)
  else Val (replicate (Z.to_nat n) zero).

(** [for _, x := range l] building one output per element, in order. *)
Fixpoint mapE {A B} (f : A -> exec B) (l : list A) : exec (list B) :=
  match l with
  | [] => Val []
  | x :: l' =>
      let! y := f x in
      let! ys := mapE f l' in
      Val (y :: ys)
  end.

(** ** The random source

    [math/rand] is Go's standard library, not part of this repository.  Its
    generator is modelled as an oracle: an infinite sequence of raw values
    and a cursor.  In any one run each position of the sequence is read by
    exactly one call, so every sequence of results the real generator can
    return is the behaviour of some oracle. *)

Record Rand : Type := mkRand { raw : nat -> Z; pos : nat }.

Definition advance (r : Rand) : Rand := mkRand (raw r) (S (pos r)).

Definition M (A : Type) : Type := Rand -> exec (A * Rand).

Definition ret {A} (a : A) : M A := fun r => Val (a, r).

Definition bind {A B} (c : M A) (k : A -> M B) : M B :=
  fun r => match c r with
           | Val (a, r') => k a r'
           | Panic p => Panic p
           end.

Definition liftE {A} (c : exec A) : M A :=
  fun r => match c with
           | Val a => Val (a, r)
           | Panic p => Panic p
           end.

Notation "'let*' x ':=' c 'in' k" := (bind c (fun x => k))
  (at level 10, x pattern, c at level 100, k at level 200).

(** [r.Intn(n)]: a value in [0, n); panics when [n <= 0]. *)
Definition Intn (n : Z) : M Z :=
  fun r => if n <=? 0 then Panic (IntnInvalidArgument n)
           else Val (raw r (pos r) mod n, advance r).

(** [r.Float64()]: a value in [0, 1) with 53 random bits. *)
Definition Float64 : M float :=
  fun r => Val (PrimFloat.div
                  (PrimFloat.of_uint63 (Uint63.of_Z (raw r (pos r) mod 2 ^ 53)))
                  (PrimFloat.of_uint63 (Uint63.of_Z (2 ^ 53))),
                advance r).

Fixpoint mapR {A B} (f : A -> M B) (l : list A) : M (list B) :=
  match l with
  | [] => ret []
  | x :: l' =>
      let* y := f x in
      let* ys := mapR f l' in
      ret (y :: ys)
  end.

Fixpoint repeatM {A} (n : nat) (c : M A) : M (list A) :=
  match n with
  | O => ret []
  | S n' =>
      let* y := c in
      let* ys := repeatM n' c in
      ret (y :: ys)
  end.

(** ** The weighted sampler (package [sampler])

    The walker imports [github.com/rlouf/birdland/sampler]; its source file
    is not among the files under verification.  The definitions of this
    section follow the specification's description of the alias method. *)

(** Modelled from the spec: the two error kinds of sampler construction,
    absent from the source files. *)
Inductive SamplerError : Type :=
| EmptyDistribution
| InvalidWeight.

(** Modelled from the spec: the sampler type, absent from the source files.
    A probability table and an alias table, both of the size of the weight
    vector the sampler was built from. *)
Record AliasSampler : Type := mkAliasSampler {
  prob : list float;
  alias : list Z
}.

(** Modelled from the spec: the weights construction refuses, negative or
    not finite. *)
Definition invalid_weight (w : float) : bool :=
  PrimFloat.ltb w 0%float || PrimFloat.is_nan w || PrimFloat.is_infinity w.

(** Modelled from the spec: the sum by which weights are normalized. *)
Definition total (weights : list float) : float :=
  fold_left PrimFloat.add weights 0%float.

(** Modelled from the spec: [probability * n] for every outcome. *)
Definition scale (weights : list float) : list float :=
  let n := PrimFloat.of_uint63 (Uint63.of_Z (Z.of_nat (length weights))) in
  map (fun w => PrimFloat.mul (PrimFloat.div w (total weights)) n) weights.

(** Modelled from the spec: the partition of the outcomes.  The positions
    [i, i+1, ...] of [scaled] that are underfull ([probability * n < 1]) when
    [want] is true, overfull otherwise. *)
Fixpoint partition_from (want : bool) (i : Z) (scaled : list float) : list Z :=
  match scaled with
  | [] => []
  | p :: scaled' =>
      if eqb (PrimFloat.ltb p 1%float) want
      then i :: partition_from want (i + 1) scaled'
      else partition_from want (i + 1) scaled'
  end.

(** Modelled from the spec: reading a table the pairing loop owns; its
    indices come from [partition_from] and are always in range. *)
Definition getf (l : list float) (i : Z) : float :=
  default 0%float (l !! Z.to_nat i).

(** Modelled from the spec: the pairing loop of the alias method, absent from
    the source files.  One underfull entry [s] and one overfull entry [l] are
    taken; [s] keeps its own mass as threshold and sends the rest of its
    bucket to [l]; [l] shrinks by what it gave and is filed again as underfull
    or overfull.  Each round settles one entry for good, so [fuel] equal to
    the number of outcomes is enough. *)
Fixpoint pair_up (fuel : nat) (scaled : list float) (small large : list Z)
    (tables : AliasSampler) : AliasSampler :=
  match fuel, small, large with
  | S fuel', s :: small', l :: large' =>
      let ps := getf scaled s in
      let pl := PrimFloat.sub (PrimFloat.add (getf scaled l) ps) 1%float in
      let tables' :=
        mkAliasSampler (<[Z.to_nat s := ps]> (prob tables))
                       (<[Z.to_nat s := l]> (alias tables)) in
      let scaled' := <[Z.to_nat l := pl]> scaled in
      if PrimFloat.ltb pl 1%float
      then pair_up fuel' scaled' (l :: small') large' tables'
      else pair_up fuel' scaled' small' (l :: large') tables'
  | _, _, _ => tables
  end.

(** Modelled from the spec: [sampler.NewAliasSampler], absent from the source
    files.  It fails with [EmptyDistribution] on no weights, with
    [InvalidWeight] when a weight is negative or not finite or when the
    weights sum to zero, and otherwise builds the two tables.  Entries the
    pairing never settles keep threshold 1 and alias 0.  The random source it
    is bound to is not read at construction. *)
Definition NewAliasSampler (weights : list float) : AliasSampler + SamplerError :=
  if (length weights =? 0)%nat then inr EmptyDistribution
  else if existsb invalid_weight weights || PrimFloat.eqb (total weights) 0%float
  then inr InvalidWeight
  else
    let n := length weights in
    let scaled := scale weights in
    inl (pair_up n scaled
           (partition_from true 0 scaled) (partition_from false 0 scaled)
           (mkAliasSampler (replicate n 1%float) (replicate n 0))).

(** Modelled from the spec: one draw of [Sample], absent from the source
    files.  A bucket is picked uniformly; with probability the bucket's
    threshold the draw is the bucket itself, otherwise its alias. *)
Definition draw (s : AliasSampler) : M Z :=
  let* k := Intn (Z.of_nat (length (prob s))) in
  let* u := Float64 in
  let* p := liftE (index (prob s) k) in
  if PrimFloat.ltb u p then ret k else liftE (index (alias s) k).

(** Modelled from the spec: [Sample(k)], absent from the source files: [k]
    independent draws, in order. *)
Definition Sample (s : AliasSampler) (k : Z) : M (list Z) :=
  repeatM (Z.to_nat k) (draw s).

(** ** The walker ([bird.go]) *)

(** Go errors as the program builds them. *)
Inductive error : Type :=
| New (msg : string)                    (* errors.New(msg) *)
| Wrap (cause : error) (msg : string)   (* errors.Wrap(cause, msg) *)
| NoOneInteracted (item : Z)
    (* fmt.Errorf("cannot perform step: no one has interacted with item %d", item) *)
| OfSampler (e : SamplerError).         (* an error returned by package sampler *)
Arguments New msg%_string.
Arguments Wrap cause msg%_string.

Record QueryItem : Type := mkQueryItem {
  Item : Z;
  Weight : float  (* for instance number of past interactions with the item *)
}.

Record BirdCfg : Type := mkBirdCfg {
  Depth : Z;
  Draws : Z
}.

Definition NewBirdCfg : BirdCfg := mkBirdCfg 1 1000.

(** Bird is a recommendation engine that performs random walks on the
    user-item bipartite graph.  [RandSource] is the state of the generator at
    construction; the samplers share that one generator. *)
Record Bird : Type := mkBird {
  Cfg : BirdCfg;
  ItemWeights : list float;           (* global weight attributed to items *)
  UsersToItems : list (list Z);       (* user-item adjacency matrix *)
  ItemsToUsers : list (list Z);       (* item-user adjacency matrix *)
  UserItemsSamplers : list AliasSampler;
  RandSource : Rand
}.

(** The three pointers [NewBird] can return: [nil], [&Bird{}] and [&b]. *)
Inductive BirdPtr : Type :=
| NilBird
| ZeroBird
| BirdAt (b : Bird).

(** The nested loop of [validateBirdInputs]: [m] starts at 0 and becomes
    every item that exceeds it. *)
Definition max_item (usersToItems : list (list Z)) : Z :=
  fold_left (fun m userItems =>
               fold_left (fun m item => if item >? m then item else m) userItems m)
            usersToItems 0.

(** [validateBirdInputs] checks the validity of the data fed to Bird.  It
    returns an error when it identifies a discrepancy that could make the
    processing algorithm crash. *)
Definition validateBirdInputs (itemWeights : list float)
    (usersToItems : list (list Z)) : option error :=
  if (length itemWeights =? 0)%nat
  then Some (New "empty slice of item weights")
  else if (length usersToItems =? 0)%nat
  then Some (New "empty users to items adjacency table")
  else
    let numItems := Z.of_nat (length itemWeights) in
    let m := max_item usersToItems in
    if numItems <=? m
    then Some (New "UsersToItems references more items itemWeights")
    else None.

(** [initUserItemsSamplers]: one sampler per user, over the weights of the
    items of the user's collection ([collectionWeights] is the inner loop).
    The first failing construction ends the loop with the wrapped error. *)
Definition collectionWeights (itemWeights : list float) (userItems : list Z)
    : exec (list float) :=
  mapE (fun item => index itemWeights item) userItems.
Arguments collectionWeights : simpl never.

Fixpoint initUserItemsSamplers (itemWeights : list float)
    (userToItems : list (list Z)) : exec (list AliasSampler * option error) :=
  match userToItems with
  | [] => Val ([], None)
  | userItems :: rest =>
      let! weights := collectionWeights itemWeights userItems in
      match NewAliasSampler weights with
      | inr err =>
          Val ([], Some (Wrap (OfSampler err)
                 "could not initialize the probability and alias tables"))
      | inl userItemsSampler =>
          let! (samplers, err) := initUserItemsSamplers itemWeights rest in
          match err with
          | Some e => Val ([], Some e)
          | None => Val (userItemsSampler :: samplers, None)
          end
      end
  end.

(** [permuteAdjacencyList] transforms the UsersToItems adjacency list into
    the complementary ItemsToUsers adjacency list. *)
Definition append_user (uid : Z) (itemsToUsers : list (list Z)) (iid : Z)
    : exec (list (list Z)) :=
  let! users := index itemsToUsers iid in
  store itemsToUsers iid (users ++ [uid]).

Fixpoint foldE {A S} (f : S -> A -> exec S) (l : list A) (s : S) : exec S :=
  match l with
  | [] => Val s
  | x :: l' => let! s' := f s x in foldE f l' s'
  end.

Fixpoint permute_users (uid : Z) (usersToItems : list (list Z))
    (itemsToUsers : list (list Z)) : exec (list (list Z)) :=
  match usersToItems with
  | [] => Val itemsToUsers
  | userItems :: rest =>
      let! itemsToUsers' := foldE (append_user uid) userItems itemsToUsers in
      permute_users (uid + 1) rest itemsToUsers'
  end.

Definition permuteAdjacencyList (numItems : Z) (usersToItems : list (list Z))
    : exec (list (list Z)) :=
  let! itemsToUsers := make [] numItems in
  permute_users 0 usersToItems itemsToUsers.

(** [NewBird] creates a new recommender from input data.  [randSource] is the
    generator that line 52 creates from the clock. *)
Definition NewBird (randSource : Rand) (cfg : BirdCfg) (itemWeights : list float)
    (usersToItems : list (list Z)) : exec (BirdPtr * option error) :=
  if Depth cfg <? 1
  then Val (NilBird, Some (New "the depth must be greater than or equal to 1"))
  else if Draws cfg <? 1
  then Val (NilBird,
            Some (New "the number of draws must be greater than or equal to 1"))
  else
    match validateBirdInputs itemWeights usersToItems with
    | Some err => Val (ZeroBird, Some (Wrap err "invalid input"))
    | None =>
        let! (userItemsSampler, err) :=
          initUserItemsSamplers itemWeights usersToItems in
        match err with
        | Some err => Val (ZeroBird, Some (Wrap err "cannot initialize samplers"))
        | None =>
            let! itemsToUsers :=
              permuteAdjacencyList (Z.of_nat (length itemWeights)) usersToItems in
            Val (BirdAt (mkBird cfg itemWeights usersToItems itemsToUsers
                           userItemsSampler randSource),
                 None)
        end
    end.

(** [sampleItem] samples one item from a user's collection. *)
Definition sampleItem (b : Bird) (user : Z) : M Z :=
  let* s := liftE (index (UserItemsSamplers b) user) in
  let* collection := liftE (index (UsersToItems b) user) in
  let* drawn := Sample s 1 in
  let* j := liftE (index drawn 0) in
  liftE (index collection j).

(** First loop of [step]: a referrer for every item, in order; the first
    item nobody interacted with ends the loop with an error. *)
Fixpoint chooseReferrers (b : Bird) (items : list Z) : M (list Z * option error) :=
  match items with
  | [] => ret ([], None)
  | item :: rest =>
      let* relatedUsers := liftE (index (ItemsToUsers b) item) in
      if (length relatedUsers =? 0)%nat
      then ret ([], Some (NoOneInteracted item))
      else
        let* k := Intn (Z.of_nat (length relatedUsers)) in
        let* user := liftE (index relatedUsers k) in
        let* (referrers, err) := chooseReferrers b rest in
        match err with
        | Some e => ret ([], Some e)
        | None => ret (user :: referrers, None)
        end
  end.

(** [step] performs one random walk step for each incoming item.  It returns
    the visited items along with the referrers, i.e. the users that were
    visited to reach these items. *)
Definition step (b : Bird) (items : list Z) : M (list Z * list Z * option error) :=
  let* (referrers, err) := chooseReferrers b items in
  match err with
  | Some e => ret ([], [], Some e)
  | None =>
      let* newItems := mapR (sampleItem b) referrers in
      ret (newItems, referrers, None)
  end.

(** Second loop of [sampleItemsFromQuery]: position [i] of [sampledItems]
    receives the query item drawn at position [i], unless nobody interacted
    with that item, in which case the loop moves on and the slot keeps what
    [make] put there. *)
Fixpoint keepSampled (b : Bird) (items : list Z) (drawn : list Z) (i : Z)
    (sampledItems : list Z) : exec (list Z) :=
  match drawn with
  | [] => Val sampledItems
  | iid :: rest =>
      let! item := index items iid in
      let! users := index (ItemsToUsers b) item in
      if (length users =? 0)%nat
      then keepSampled b items rest (i + 1) sampledItems
      else
        let! sampledItems' := store sampledItems i item in
        keepSampled b items rest (i + 1) sampledItems'
  end.

(** [sampleItemsFromQuery] returns a slice of items that will be the starting
    points of the subsequent random walks.  [queryWeights] is its first loop
    ([items] is filled by the same loop). *)
Definition queryWeights (b : Bird) (query : list QueryItem) : exec (list float) :=
  mapE (fun q => let! w := index (ItemWeights b) (Item q) in
                 Val (PrimFloat.mul (Weight q) w)) query.
Arguments queryWeights : simpl never.

Definition sampleItemsFromQuery (b : Bird) (query : list QueryItem)
    : M (list Z * option error) :=
  let* weights := liftE (queryWeights b query) in
  let items := map Item query in
  match NewAliasSampler weights with
  | inr err => ret ([], Some (Wrap (OfSampler err) "cannot create sampler"))
  | inl s =>
      let* sampledItems := liftE (make 0 (Draws (Cfg b))) in
      let* drawn := Sample s (Draws (Cfg b)) in
      let* sampledItems := liftE (keepSampled b items drawn 0 sampledItems) in
      if (length sampledItems =? 0)%nat
      then ret ([], Some (New
             "no items were sampled,check that the query refers to actual items."))
      else ret (sampledItems, None)
  end.

(** The depth loop of [Process].  The body declares its own [stepItems] with
    [:=]; the call on its right-hand side still reads the [stepItems] of the
    enclosing scope, which the loop therefore never updates. *)
Fixpoint walk (b : Bird) (stepItems : list Z) (rounds : nat)
    (items referrers : list Z) : M (list Z * list Z * option error) :=
  match rounds with
  | O => ret (items, referrers, None)
  | S rounds' =>
      let* (stepItems', stepReferrers, err) := step b stepItems in
      match err with
      | Some e => ret ([], [], Some (Wrap e "cannot step through items"))
      | None =>
          walk b stepItems rounds' (items ++ stepItems') (referrers ++ stepReferrers)
      end
  end.

(** [Process] randomly samples items from the query and performs random
    walks starting from them.  Returns a list of items and a list of users
    who referred this item in the walk.  [for d := 0; d < Depth; d++] runs
    [Z.to_nat Depth] times. *)
Definition Process (b : Bird) (query : list QueryItem)
    : M (list Z * list Z * option error) :=
  if (length query =? 0)%nat then ret ([], [], Some (New "empty query"))
  else
    let* (stepItems, err) := sampleItemsFromQuery b query in
    match err with
    | Some e => ret ([], [], Some (Wrap e "cannot sample items"))
    | None => walk b stepItems (Z.to_nat (Depth (Cfg b))) [] []
    end.

(** The output of a run, without the final state of the generator. *)
Definition output {A} (c : exec (A * Rand)) : exec A :=
  match c with
  | Val (a, _) => Val a
  | Panic p => Panic p
  end.

(** ** Vocabulary of the statements *)

(** The adjacency row of index [z]; no row outside the table. *)
Definition row (table : list (list Z)) (z : Z) : list Z :=
  if z <? 0 then [] else default [] (table !! Z.to_nat z).

(** Number of occurrences of [x] in [l]. *)
Definition count (x : Z) (l : list Z) : nat := count_occ Z.eq_dec l x.

(** Every item index of the adjacency table is below [numItems] and not
    negative. *)
Definition items_in_range (numItems : Z) (usersToItems : list (list Z)) : Prop :=
  Forall (Forall (fun item => 0 <= item < numItems)) usersToItems.

(** The inputs [NewBird] rejects before it builds anything. *)
Definition invalid_inputs (cfg : BirdCfg) (itemWeights : list float)
    (usersToItems : list (list Z)) : Prop :=
  Depth cfg < 1 \/ Draws cfg < 1 \/ itemWeights = [] \/ usersToItems = [] \/
  exists userItems item,
    userItems ∈ usersToItems /\ item ∈ userItems /\
    Z.of_nat (length itemWeights) <= item.

(** The errors of the checks at the head of [NewBird]. *)
Definition validation_error (e : error) : Prop :=
  e = New "the depth must be greater than or equal to 1" \/
  e = New "the number of draws must be greater than or equal to 1" \/
  exists cause, e = Wrap cause "invalid input".

(** User [u] is the first user whose sampler cannot be built, for the reason
    [cause]. *)
Definition sampler_fails_at (itemWeights : list float)
    (usersToItems : list (list Z)) (u : nat) (cause : SamplerError) : Prop :=
  (forall u' userItems, (u' < u)%nat -> usersToItems !! u' = Some userItems ->
     exists weights s, collectionWeights itemWeights userItems = Val weights /\
                       NewAliasSampler weights = inl s) /\
  exists userItems weights,
    usersToItems !! u = Some userItems /\
    collectionWeights itemWeights userItems = Val weights /\
    NewAliasSampler weights = inr cause.

(** Both tables have [n] entries, [n >= 1], and every alias is an outcome. *)
Definition sampler_ok (n : nat) (s : AliasSampler) : Prop :=
  (1 <= n)%nat /\ length (prob s) = n /\ length (alias s) = n /\
  Forall (fun a => 0 <= a < Z.of_nat n) (alias s).

(** What construction establishes. *)
Record bird_ok (b : Bird) : Prop := mk_bird_ok {
  ok_depth : 1 <= Depth (Cfg b);
  ok_draws : 1 <= Draws (Cfg b);
  ok_items : (1 <= length (ItemWeights b))%nat;
  ok_users : (1 <= length (UsersToItems b))%nat;
  ok_range : items_in_range (Z.of_nat (length (ItemWeights b))) (UsersToItems b);
  ok_reverse_len : length (ItemsToUsers b) = length (ItemWeights b);
  ok_reverse : forall u i,
    count u (row (ItemsToUsers b) i) = count i (row (UsersToItems b) u);
  ok_samplers :
    Forall2 (fun s userItems => sampler_ok (length userItems) s)
            (UserItemsSamplers b) (UsersToItems b)
}.

(** The slot a drawn query item ends in: the item, or what [make] left. *)
Definition slot (b : Bird) (item : Z) (left : option Z) : option Z :=
  if (length (row (ItemsToUsers b) item) =? 0)%nat then left else Some item.

(** The walk as the specification describes it: every hop works on the
    items the hop before it produced.  Only the argument of the recursive
    call differs from [walk]. *)
Fixpoint walk_chained (b : Bird) (stepItems : list Z) (rounds : nat)
    (items referrers : list Z) : M (list Z * list Z * option error) :=
  match rounds with
  | O => ret (items, referrers, None)
  | S rounds' =>
      let* (stepItems', stepReferrers, err) := step b stepItems in
      match err with
      | Some e => ret ([], [], Some (Wrap e "cannot step through items"))
      | None =>
          walk_chained b stepItems' rounds'
            (items ++ stepItems') (referrers ++ stepReferrers)
      end
  end.

Definition Process_chained (b : Bird) (query : list QueryItem)
    : M (list Z * list Z * option error) :=
  if (length query =? 0)%nat then ret ([], [], Some (New "empty query"))
  else
    let* (stepItems, err) := sampleItemsFromQuery b query in
    match err with
    | Some e => ret ([], [], Some (Wrap e "cannot sample items"))
    | None => walk_chained b stepItems (Z.to_nat (Depth (Cfg b))) [] []
    end.

(** ** Sample data *)

Definition zeroes : Rand := mkRand (fun _ => 0) 0.
Definition ones : Rand := mkRand (fun _ => 1) 0.
Definition tape (l : list Z) : Rand := mkRand (fun i => default 0 (l !! i)) 0.

(** The tables of a sampler over two equal weights. *)
Definition fair_pair : AliasSampler :=
  mkAliasSampler [1%float; 1%float] [0; 0].

(** Two users, three items, every item held by somebody. *)
Definition chain_graph : list (list Z) := [[0; 1]; [1; 2]].

Definition chain_bird (cfg : BirdCfg) (randSource : Rand) : Bird :=
  mkBird cfg [1%float; 1%float; 1%float] chain_graph [[0]; [0; 1]; [1]]
         [fair_pair; fair_pair] randSource.

(** One user, three items, nobody holds item 2. *)
Definition lonely_bird (cfg : BirdCfg) (randSource : Rand) : Bird :=
  mkBird cfg [1%float; 1%float; 1%float] [[0; 1]] [[0]; [0]; []]
         [fair_pair] randSource.

(** One user, two items, nobody holds item 0. *)
Definition orphan_bird (cfg : BirdCfg) (randSource : Rand) : Bird :=
  mkBird cfg [1%float; 1%float] [[1]] [[]; [0]]
         [mkAliasSampler [1%float] [0]] randSource.

(** * Proofs *)

(** ** Slices *)

Lemma index_Val {A} (l : list A) (i : Z) (x : A) :
  index l i = Val x <-> 0 <= i /\ l !! Z.to_nat i = Some x.
Proof.
  unfold index. destruct (Z.ltb_spec i 0).
  - split; [discriminate | lia].
  - destruct (l !! Z.to_nat i); split; intros; destruct_and?; simplify_eq; auto.
Qed.

Lemma index_in_range {A} (l : list A) (i : Z) :
  0 <= i < Z.of_nat (length l) -> exists x, index l i = Val x.
Proof.
  intros Hi. destruct (lookup_lt_is_Some_2 l (Z.to_nat i)) as [x Hx]; [lia|].
  exists x. apply index_Val. split; [lia | done].
Qed.

Lemma index_Val_range {A} (l : list A) (i : Z) (x : A) :
  index l i = Val x -> 0 <= i < Z.of_nat (length l).
Proof.
  intros [? Hx]%index_Val. apply lookup_lt_Some in Hx. lia.
Qed.

Lemma index_Panic_range {A} (l : list A) (i : Z) (p : panic) :
  index l i = Panic p -> (i < 0 \/ Z.of_nat (length l) <= i) /\ p = IndexOutOfRange i (length l).
Proof.
  unfold index. destruct (Z.ltb_spec i 0).
  - intros; simplify_eq; split; [lia | done].
  - destruct (l !! Z.to_nat i) eqn:E; intros; simplify_eq.
    apply lookup_ge_None in E. split; [lia | done].
Qed.

Lemma store_Val {A} (l l' : list A) (i : Z) (x : A) :
  store l i x = Val l' <->
  0 <= i < Z.of_nat (length l) /\ l' = <[Z.to_nat i := x]> l.
Proof.
  unfold store.
  destruct (Z.ltb_spec i 0), (Z.leb_spec (Z.of_nat (length l)) i); simpl;
    split; intros; destruct_and?; simplify_eq; try lia; auto with lia.
Qed.

Lemma make_Val {A} (zero : A) (n : Z) (l : list A) :
  make zero n = Val l <-> 0 <= n /\ l = replicate (Z.to_nat n) zero.
Proof.
  unfold make. destruct (Z.ltb_spec n 0);
    split; intros; destruct_and?; simplify_eq; try lia; auto.
Qed.

Lemma bindE_Val {A B} (c : exec A) (k : A -> exec B) (y : B) :
  bindE c k = Val y <-> exists a, c = Val a /\ k a = Val y.
Proof.
  destruct c; simpl; split; intros; try destruct_and?; simplify_eq; eauto.
  - destruct H as (? & ? & ?). by simplify_eq.
  - destruct H as (? & ? & ?). by simplify_eq.
Qed.

Lemma mapE_Val {A B} (f : A -> exec B) (l : list A) (out : list B) :
  mapE f l = Val out <-> Forall2 (fun x y => f x = Val y) l out.
Proof.
  revert out. induction l as [|x l IH]; intros out; simpl.
  - split; [intros; simplify_eq; constructor | by inversion 1].
  - rewrite bindE_Val. split.
    + intros (y & Hy & (ys & Hys & ?)%bindE_Val). simplify_eq.
      constructor; [done | by apply IH].
    + inversion 1 as [|? y ? ys Hy Hys]; subst. exists y. split; [done|].
      apply bindE_Val. exists ys. split; [by apply IH | done].
Qed.

Lemma mapE_total {A B} (f : A -> exec B) (l : list A) :
  Forall (fun x => exists y, f x = Val y) l -> exists out, mapE f l = Val out.
Proof.
  induction 1 as [|x l [y Hy] _ [ys Hys]]; simpl; [by eexists|].
  rewrite Hy; simpl. rewrite Hys; simpl. by eexists.
Qed.

(** ** The state monad *)

Lemma bind_Val {A B} (c : M A) (k : A -> M B) (r r' : Rand) (y : B) :
  bind c k r = Val (y, r') <->
  exists a r1, c r = Val (a, r1) /\ k a r1 = Val (y, r').
Proof.
  unfold bind. destruct (c r) as [[a r1]|p]; split.
  - eauto.
  - by intros (? & ? & ? & ?); simplify_eq.
  - discriminate.
  - by intros (? & ? & ? & ?).
Qed.

Lemma liftE_Val {A} (c : exec A) (r r' : Rand) (a : A) :
  liftE c r = Val (a, r') <-> c = Val a /\ r' = r.
Proof.
  unfold liftE. destruct c; split; intros; destruct_and?; by simplify_eq.
Qed.

Lemma ret_Val {A} (a a' : A) (r r' : Rand) :
  ret a r = Val (a', r') <-> a' = a /\ r' = r.
Proof. unfold ret. split; intros; destruct_and?; by simplify_eq. Qed.

Lemma Intn_Val (n k : Z) (r r' : Rand) :
  Intn n r = Val (k, r') <->
  0 < n /\ k = raw r (pos r) mod n /\ r' = advance r.
Proof.
  unfold Intn. destruct (Z.leb_spec n 0);
    split; intros; destruct_and?; simplify_eq; auto with lia.
Qed.

Lemma Intn_range (n k : Z) (r r' : Rand) :
  Intn n r = Val (k, r') -> 0 <= k < n.
Proof.
  intros (? & -> & _)%Intn_Val. by apply Z.mod_pos_bound.
Qed.

Lemma Intn_total (n : Z) (r : Rand) :
  0 < n -> exists k, Intn n r = Val (k, advance r) /\ 0 <= k < n.
Proof.
  intros Hn. exists (raw r (pos r) mod n). split.
  - apply Intn_Val; auto.
  - by apply Z.mod_pos_bound.
Qed.

(** Inversion of a successful run, one bind at a time. *)
Ltac inv_run :=
  repeat match goal with
  | H : bind _ _ _ = Val _ |- _ =>
      apply bind_Val in H; destruct H as (? & ? & ? & H)
  | H : liftE _ _ = Val _ |- _ => apply liftE_Val in H; destruct H as [H ->]
  | H : ret _ _ = Val _ |- _ => apply ret_Val in H; destruct H as [? ?]
  | H : bindE _ _ = Val _ |- _ =>
      apply bindE_Val in H; destruct H as (? & ? & H)
  | H : Val _ = Val _ |- _ => injection H as H
  | H : (_, _) = (_, _) |- _ => injection H as H
  end; subst.

(** ** The sampler's tables *)

Lemma partition_from_range (want : bool) (i : Z) (scaled : list float) :
  Forall (fun a => i <= a < i + Z.of_nat (length scaled))
         (partition_from want i scaled).
Proof.
  revert i. induction scaled as [|p scaled IH]; intros i; simpl; [constructor|].
  specialize (IH (i + 1)).
  assert (Forall (fun a => i <= a < i + Z.of_nat (S (length scaled)))
                 (partition_from want (i + 1) scaled)) as IH'.
  { eapply Forall_impl; [exact IH|]. simpl. intros; lia. }
  destruct (eqb _ want); [constructor; [lia | done] | done].
Qed.

Lemma pair_up_ok (n fuel : nat) (scaled : list float) (small large : list Z)
    (tables : AliasSampler) :
  Forall (fun a => 0 <= a < Z.of_nat n) small ->
  Forall (fun a => 0 <= a < Z.of_nat n) large ->
  sampler_ok n tables ->
  sampler_ok n (pair_up fuel scaled small large tables).
Proof.
  revert scaled small large tables.
  induction fuel as [|fuel IH]; intros scaled small large tables Hs Hl Hok;
    simpl; [done|].
  destruct small as [|s small]; [done|]. destruct large as [|l large]; [done|].
  apply Forall_cons in Hs as [Hs Hsmall]. apply Forall_cons in Hl as [Hl Hlarge].
  assert (sampler_ok n
            {| prob := <[Z.to_nat s := getf scaled s]> (prob tables);
               alias := <[Z.to_nat s := l]> (alias tables) |}) as Hok'.
  { destruct Hok as (? & ? & ? & ?). repeat split; simpl; auto.
    - by rewrite length_insert.
    - by rewrite length_insert.
    - by apply Forall_insert. }
  destruct (PrimFloat.ltb _ _); apply IH; auto.
Qed.

Lemma NewAliasSampler_ok (weights : list float) (s : AliasSampler) :
  NewAliasSampler weights = inl s -> sampler_ok (length weights) s.
Proof.
  unfold NewAliasSampler. destruct (Nat.eqb_spec (length weights) 0); [done|].
  destruct (_ || _); [done|]. intros [= <-].
  assert (length (scale weights) = length weights) as Hlen
    by (unfold scale; by rewrite length_map).
  apply pair_up_ok.
  - generalize (partition_from_range true 0 (scale weights)). by rewrite Hlen.
  - generalize (partition_from_range false 0 (scale weights)). by rewrite Hlen.
  - repeat split; simpl; rewrite ?length_replicate; auto with lia.
    apply Forall_replicate. lia.
Qed.

Lemma NewAliasSampler_error (weights : list float) (e : SamplerError) :
  NewAliasSampler weights = inr e <->
  (weights = [] /\ e = EmptyDistribution) \/
  (weights <> [] /\ e = InvalidWeight /\
   (existsb invalid_weight weights = true \/
    PrimFloat.eqb (total weights) 0%float = true)).
Proof.
  unfold NewAliasSampler. destruct weights as [|w ws]; simpl.
  - split; [intros [= <-]; by left | intros [[_ ->]|[? _]]; done].
  - destruct (_ || _) eqn:E.
    + apply orb_true_iff in E. split.
      * intros [= <-]. right. done.
      * intros [[? _]|(_ & -> & _)]; done.
    + split; [done|]. intros [[? _]|(_ & _ & H)]; [done|].
      apply orb_false_iff in E as [E1 E2]. simpl in *.
      destruct H; congruence.
Qed.

(** The pairing never stops for lack of fuel: every round removes one entry
    from the two work lists taken together, and [NewAliasSampler] starts
    with as much fuel as there are entries. *)
Lemma pair_up_done (fuel : nat) (scaled : list float) (small large : list Z)
    (tables : AliasSampler) :
  small = [] \/ large = [] -> pair_up fuel scaled small large tables = tables.
Proof. intros [-> | ->]; destruct fuel; try done; by destruct small. Qed.

Lemma pair_up_round (fuel : nat) (scaled : list float) (s l : Z)
    (small large : list Z) (tables : AliasSampler) :
  pair_up (S fuel) scaled (s :: small) (l :: large) tables =
  let ps := getf scaled s in
  let pl := PrimFloat.sub (PrimFloat.add (getf scaled l) ps) 1%float in
  let tables' :=
    mkAliasSampler (<[Z.to_nat s := ps]> (prob tables))
                   (<[Z.to_nat s := l]> (alias tables)) in
  let scaled' := <[Z.to_nat l := pl]> scaled in
  if PrimFloat.ltb pl 1%float
  then pair_up fuel scaled' (l :: small) large tables'
  else pair_up fuel scaled' small (l :: large) tables'.
Proof. reflexivity. Qed.

Lemma pair_up_fuel (fuel : nat) (scaled : list float) (small large : list Z)
    (tables : AliasSampler) :
  (length small + length large <= fuel)%nat ->
  pair_up fuel scaled small large tables =
  pair_up (length small + length large) scaled small large tables.
Proof.
  revert scaled small large tables.
  induction fuel as [fuel IH] using lt_wf_ind.
  intros scaled small large tables Hfuel.
  destruct small as [|s small]; [by rewrite !pair_up_done by auto|].
  destruct large as [|l large]; [by rewrite !pair_up_done by auto|].
  destruct fuel as [|fuel]; [simpl in Hfuel; lia|].
  replace (length (s :: small) + length (l :: large))%nat
    with (S (length small + S (length large))) by (simpl; lia).
  simpl in Hfuel. rewrite !pair_up_round. cbv zeta.
  destruct (PrimFloat.ltb _ 1).
  - rewrite (IH fuel) by (simpl; lia).
    rewrite (IH (length small + S (length large))%nat) by (simpl; lia).
    done.
  - rewrite (IH fuel) by (simpl; lia). done.
Qed.

Lemma partition_from_lengths (i : Z) (scaled : list float) :
  (length (partition_from true i scaled) +
   length (partition_from false i scaled))%nat = length scaled.
Proof.
  revert i. induction scaled as [|p scaled IH]; intros i; simpl; [done|].
  specialize (IH (i + 1)). destruct (PrimFloat.ltb p 1); simpl; lia.
Qed.

(** A draw never panics and returns one of the [n] outcomes. *)
Lemma draw_total (n : nat) (s : AliasSampler) (r : Rand) :
  sampler_ok n s ->
  exists k r', draw s r = Val (k, r') /\ 0 <= k < Z.of_nat n.
Proof.
  intros (Hn & Hp & Ha & Hall). unfold draw.
  destruct (Intn_total (Z.of_nat (length (prob s))) r) as (k & Hk & Hr); [lia|].
  rewrite Hp in Hr.
  destruct (index_in_range (prob s) k) as [p Hpk]; [lia|].
  destruct (index_in_range (alias s) k) as [a Hak]; [lia|].
  unfold bind. rewrite Hk. unfold Float64, liftE. rewrite Hpk.
  destruct (PrimFloat.ltb _ p).
  - eexists _, _. split; [reflexivity | done].
  - rewrite Hak. eexists _, _. split; [reflexivity|].
    apply index_Val in Hak as [_ Hak].
    rewrite Forall_lookup in Hall. eauto.
Qed.

Lemma repeatM_total {A} (P : A -> Prop) (c : M A) (n : nat) (r : Rand) :
  (forall r, exists a r', c r = Val (a, r') /\ P a) ->
  exists l r', repeatM n c r = Val (l, r') /\ length l = n /\ Forall P l.
Proof.
  intros Hc. revert r. induction n as [|n IH]; intros r; simpl.
  - eexists _, _. split; [reflexivity | by split].
  - destruct (Hc r) as (a & r1 & Ha & HP).
    destruct (IH r1) as (l & r2 & Hl & Hlen & Hall).
    unfold bind. rewrite Ha, Hl. eexists _, _. split; [reflexivity|].
    split; [simpl; lia | by constructor].
Qed.

Lemma repeatM_length {A} (c : M A) (n : nat) (r r' : Rand) (l : list A) :
  repeatM n c r = Val (l, r') -> length l = n.
Proof.
  revert r l. induction n as [|n IH]; intros r l H; simpl in H; inv_run; [done|].
  simpl. f_equal. eauto.
Qed.

(** [Sample(k)] never panics and returns exactly [k] outcomes. *)
Lemma Sample_total (n : nat) (s : AliasSampler) (k : Z) (r : Rand) :
  sampler_ok n s ->
  exists l r', Sample s k r = Val (l, r') /\ length l = Z.to_nat k /\
               Forall (fun a => 0 <= a < Z.of_nat n) l.
Proof.
  intros Hok. apply repeatM_total. intros r0. by apply draw_total.
Qed.

Lemma Sample_length (s : AliasSampler) (k : Z) (r r' : Rand) (l : list Z) :
  Sample s k r = Val (l, r') -> length l = Z.to_nat k.
Proof. apply repeatM_length. Qed.

(** ** Inverting the adjacency list *)

Lemma row_lookup (table : list (list Z)) (z : Z) (l : list Z) :
  0 <= z -> table !! Z.to_nat z = Some l -> row table z = l.
Proof.
  intros Hz Hl. unfold row. destruct (Z.ltb_spec z 0); [lia|]. by rewrite Hl.
Qed.

Lemma row_outside (table : list (list Z)) (z : Z) :
  z < 0 \/ Z.of_nat (length table) <= z -> row table z = [].
Proof.
  intros Hz. unfold row. destruct (Z.ltb_spec z 0); [done|].
  rewrite (proj2 (lookup_ge_None table (Z.to_nat z))); [done | lia].
Qed.

Lemma row_insert (table : list (list Z)) (z i : Z) (l : list Z) :
  0 <= z < Z.of_nat (length table) ->
  row (<[Z.to_nat z := l]> table) i = if decide (i = z) then l else row table i.
Proof.
  intros Hz. unfold row. destruct (decide (i = z)) as [->|Hne].
  - destruct (Z.ltb_spec z 0); [lia|].
    rewrite list_lookup_insert_eq; [done | lia].
  - destruct (Z.ltb_spec i 0); [done|].
    rewrite list_lookup_insert_ne; [done | lia].
Qed.

Lemma index_row (table : list (list Z)) (z : Z) (l : list Z) :
  index table z = Val l -> row table z = l.
Proof. intros [? ?]%index_Val. by apply row_lookup. Qed.

Lemma append_user_Val (uid iid : Z) (itemsToUsers out : list (list Z)) :
  append_user uid itemsToUsers iid = Val out <->
  0 <= iid < Z.of_nat (length itemsToUsers) /\
  out = <[Z.to_nat iid := row itemsToUsers iid ++ [uid]]> itemsToUsers.
Proof.
  unfold append_user. rewrite bindE_Val. split.
  - intros (users & Hu & Hs). apply store_Val in Hs as [? ->].
    by rewrite (index_row _ _ _ Hu).
  - intros [Hi ->]. destruct (index_in_range itemsToUsers iid Hi) as [users Hu].
    exists users. split; [done|]. apply store_Val.
    by rewrite (index_row _ _ _ Hu).
Qed.

Lemma count_snoc (u x : Z) (l : list Z) :
  count u (l ++ [x]) = (count u l + if decide (x = u) then 1 else 0)%nat.
Proof.
  unfold count. rewrite count_occ_app. simpl.
  destruct (Z.eq_dec x u), (decide (x = u)); done.
Qed.

(** One user's collection: the user is appended once to the row of every
    item of the collection, as often as the item occurs. *)
Lemma foldE_append_user (uid : Z) (userItems : list Z)
    (itemsToUsers out : list (list Z)) :
  foldE (append_user uid) userItems itemsToUsers = Val out ->
  length out = length itemsToUsers /\
  Forall (fun item => 0 <= item < Z.of_nat (length itemsToUsers)) userItems /\
  forall u i,
    count u (row out i) =
    (count u (row itemsToUsers i) +
     if decide (u = uid) then count i userItems else 0)%nat.
Proof.
  revert itemsToUsers. induction userItems as [|iid rest IH];
    intros itemsToUsers H; simpl in H.
  - simplify_eq. repeat split; [constructor|]. intros. simpl.
    destruct (decide _); unfold count; simpl; lia.
  - apply bindE_Val in H as (mid & Hmid & H).
    apply append_user_Val in Hmid as [Hiid ->].
    apply IH in H as (Hlen & Hall & Hcount). rewrite length_insert in Hlen, Hall.
    repeat split; [done | by constructor |]. intros u i.
    rewrite Hcount, row_insert by done.
    unfold count at 4. simpl. fold (count i rest).
    destruct (decide (i = iid)) as [->|Hne].
    + rewrite count_snoc. destruct (Z.eq_dec iid iid); [|done].
      destruct (decide (uid = u)), (decide (u = uid)); subst; try done; lia.
    + destruct (Z.eq_dec iid i); [by subst|]. done.
Qed.


Lemma row_cons_0 (c : list Z) (rest : list (list Z)) : row (c :: rest) 0 = c.
Proof. done. Qed.

Lemma row_cons_S (c : list Z) (rest : list (list Z)) (z : Z) :
  0 < z -> row (c :: rest) z = row rest (z - 1).
Proof.
  intros Hz. unfold row.
  destruct (Z.ltb_spec z 0), (Z.ltb_spec (z - 1) 0); try lia.
  replace (Z.to_nat z) with (S (Z.to_nat (z - 1))) by lia. done.
Qed.

(** All users from [uid] on. *)
Lemma permute_users_Val (uid : Z) (usersToItems : list (list Z))
    (itemsToUsers out : list (list Z)) :
  permute_users uid usersToItems itemsToUsers = Val out ->
  length out = length itemsToUsers /\
  items_in_range (Z.of_nat (length itemsToUsers)) usersToItems /\
  forall u i,
    count u (row out i) =
    (count u (row itemsToUsers i) + count i (row usersToItems (u - uid)))%nat.
Proof.
  revert uid itemsToUsers. induction usersToItems as [|c rest IH];
    intros uid itemsToUsers H; simpl in H.
  - simplify_eq. repeat split; [constructor|]. intros.
    rewrite (row_outside []); [unfold count; simpl; lia | simpl; lia].
  - apply bindE_Val in H as (mid & Hmid & H).
    apply foldE_append_user in Hmid as (Hlen1 & Hall1 & Hc1).
    apply IH in H as (Hlen2 & Hall2 & Hc2). rewrite Hlen1 in Hlen2, Hall2.
    repeat split; [done | by constructor |]. intros u i.
    rewrite Hc2, Hc1. destruct (decide (u = uid)) as [->|Hne].
    + replace (uid - uid) with 0 by lia. rewrite row_cons_0.
      rewrite (row_outside rest); [unfold count at 3; simpl; lia | lia].
    + destruct (Z.lt_ge_cases u uid).
      * rewrite !(row_outside _ (u - _)) by lia. done.
      * rewrite row_cons_S by lia.
        replace (u - uid - 1) with (u - (uid + 1)) by lia. lia.
Qed.


Lemma row_replicate_nil (n : nat) (z : Z) : row (replicate n []) z = [].
Proof.
  unfold row. destruct (Z.ltb_spec z 0); [done|].
  destruct (replicate n [] !! Z.to_nat z) eqn:E; [|done].
  by apply lookup_replicate in E as [-> _].
Qed.

(** What [permuteAdjacencyList] returns when it returns. *)
Lemma permuteAdjacencyList_Val (numItems : Z) (usersToItems out : list (list Z)) :
  permuteAdjacencyList numItems usersToItems = Val out ->
  0 <= numItems /\ items_in_range numItems usersToItems /\
  Z.of_nat (length out) = numItems /\
  forall u i, count u (row out i) = count i (row usersToItems u).
Proof.
  unfold permuteAdjacencyList. intros (zs & Hzs & H)%bindE_Val.
  apply make_Val in Hzs as [Hn ->].
  apply permute_users_Val in H as (Hlen & Hall & Hc).
  rewrite length_replicate in Hlen, Hall.
  rewrite Z2Nat.id in Hall by done.
  repeat split; [done | done | lia |]. intros u i.
  rewrite Hc, row_replicate_nil. unfold count at 1. simpl.
  by replace (u - 0) with u by lia.
Qed.


(** ** Validation *)

Lemma max_row (userItems : list Z) (m0 : Z) :
  let m := fold_left (fun m item => if item >? m then item else m) userItems m0 in
  m0 <= m /\ Forall (fun item => item <= m) userItems /\ (m = m0 \/ m ∈ userItems).
Proof.
  revert m0. induction userItems as [|item rest IH]; intros m0; simpl.
  - repeat split; [lia | constructor | by left].
  - set (m1 := if item >? m0 then item else m0).
    destruct (IH m1) as (Hle & Hall & Hin).
    assert (m0 <= m1 /\ item <= m1 /\ (m1 = m0 \/ m1 = item)) as (? & ? & Hm1)
      by (unfold m1; destruct (Z.gtb_spec item m0); lia).
    repeat split; [lia | constructor; [lia | done] |].
    destruct Hin as [->|Hin]; [|right; by right].
    destruct Hm1 as [->| ->]; [by left | right; by left].
Qed.

Lemma max_table (usersToItems : list (list Z)) (m0 : Z) :
  let m := fold_left (fun m userItems =>
             fold_left (fun m item => if item >? m then item else m) userItems m)
             usersToItems m0 in
  m0 <= m /\ Forall (Forall (fun item => item <= m)) usersToItems /\
  (m = m0 \/ exists userItems, userItems ∈ usersToItems /\ m ∈ userItems).
Proof.
  revert m0. induction usersToItems as [|c rest IH]; intros m0; simpl.
  - repeat split; [lia | constructor | by left].
  - destruct (max_row c m0) as (Hle1 & Hall1 & Hin1).
    set (m1 := fold_left _ c m0) in *.
    destruct (IH m1) as (Hle & Hall & Hin).
    repeat split; [lia | constructor; [|done] |].
    + eapply Forall_impl; [exact Hall1|]. simpl. intros; lia.
    + destruct Hin as [->|(c' & Hc' & Hm)].
      * destruct Hin1 as [->|Hin1]; [by left|].
        right. exists c. split; [by left | done].
      * right. exists c'. split; [by right | done].
Qed.

Lemma validateBirdInputs_None (itemWeights : list float)
    (usersToItems : list (list Z)) :
  validateBirdInputs itemWeights usersToItems = None <->
  itemWeights <> [] /\ usersToItems <> [] /\
  Forall (Forall (fun item => item < Z.of_nat (length itemWeights))) usersToItems.
Proof.
  unfold validateBirdInputs.
  destruct itemWeights as [|w ws]; [simpl; split; [done | by intros [? _]]|].
  destruct usersToItems as [|c cs]; [simpl; split; [done | by intros (_ & ? & _)]|].
  change (length (w :: ws) =? 0)%nat with false.
  change (length (c :: cs) =? 0)%nat with false. cbv iota.
  destruct (max_table (c :: cs) 0) as (Hle & Hall & Hin).
  fold (max_item (c :: cs)) in *. set (m := max_item (c :: cs)) in *.
  destruct (Z.leb_spec (Z.of_nat (length (w :: ws))) m) as [Hm|Hm].
  - split; [done|]. intros (_ & _ & Hlt). exfalso.
    destruct Hin as [Hin|(c' & Hc' & Hin)]; [simpl in Hm; lia|].
    rewrite Forall_forall in Hlt. specialize (Hlt c' Hc').
    rewrite Forall_forall in Hlt. specialize (Hlt m Hin). lia.
  - split; [|done]. intros _. repeat split; [done | done |].
    eapply Forall_impl; [exact Hall|]. intros c' Hc'.
    eapply Forall_impl; [exact Hc'|]. cbv beta. intros; lia.
Qed.

Lemma not_invalid_inputs (cfg : BirdCfg) (itemWeights : list float)
    (usersToItems : list (list Z)) :
  ~ invalid_inputs cfg itemWeights usersToItems <->
  1 <= Depth cfg /\ 1 <= Draws cfg /\
  validateBirdInputs itemWeights usersToItems = None.
Proof.
  rewrite validateBirdInputs_None. unfold invalid_inputs. split.
  - intros H. repeat split; try (apply Z.nlt_ge; intros ?; apply H; auto; fail).
    + intros ->. apply H; auto.
    + intros ->. apply H; auto 6.
    + apply Forall_forall. intros c Hc. apply Forall_forall. intros item Hitem.
      apply Z.nle_gt. intros ?. apply H. do 4 right. eauto.
  - intros (? & ? & ? & ? & Hall) [?|[?|[?|[?|(c & item & Hc & Hitem & ?)]]]];
      try done; try lia.
    rewrite Forall_forall in Hall. specialize (Hall c Hc).
    rewrite Forall_forall in Hall. specialize (Hall item Hitem). lia.
Qed.

(** ** Building the samplers *)

Lemma collectionWeights_Val (itemWeights : list float) (userItems : list Z)
    (weights : list float) :
  collectionWeights itemWeights userItems = Val weights ->
  length weights = length userItems /\
  Forall (fun item => 0 <= item < Z.of_nat (length itemWeights)) userItems.
Proof.
  intros H%mapE_Val. split; [symmetry; by eapply Forall2_length|].
  induction H; constructor; eauto using index_Val_range.
Qed.

Lemma collectionWeights_total (itemWeights : list float) (userItems : list Z) :
  Forall (fun item => 0 <= item < Z.of_nat (length itemWeights)) userItems ->
  exists weights, collectionWeights itemWeights userItems = Val weights.
Proof.
  intros H. apply mapE_total. eapply Forall_impl; [exact H|].
  intros item Hitem. by apply index_in_range.
Qed.

Lemma initUserItemsSamplers_None (itemWeights : list float)
    (usersToItems : list (list Z)) (samplers : list AliasSampler) :
  initUserItemsSamplers itemWeights usersToItems = Val (samplers, None) ->
  Forall2 (fun s userItems => sampler_ok (length userItems) s)
          samplers usersToItems /\
  items_in_range (Z.of_nat (length itemWeights)) usersToItems.
Proof.
  revert samplers. induction usersToItems as [|c rest IH]; intros samplers H;
    simpl in H.
  - simplify_eq. split; constructor.
  - apply bindE_Val in H as (ws & Hws & H).
    destruct (NewAliasSampler ws) as [s|e] eqn:Hs; [|done].
    apply bindE_Val in H as ([ss [e|]] & Hss & H); [done|]. simplify_eq.
    apply IH in Hss as [Hss Hrange].
    apply collectionWeights_Val in Hws as [Hlen Hc].
    apply NewAliasSampler_ok in Hs. rewrite Hlen in Hs.
    split; by constructor.
Qed.

Lemma initUserItemsSamplers_fails (itemWeights : list float)
    (usersToItems : list (list Z)) (u : nat) (cause : SamplerError) :
  sampler_fails_at itemWeights usersToItems u cause ->
  initUserItemsSamplers itemWeights usersToItems =
  Val ([], Some (Wrap (OfSampler cause)
                   "could not initialize the probability and alias tables")).
Proof.
  revert u. induction usersToItems as [|c rest IH]; intros u [Hbefore Hat].
  - by destruct Hat as (? & ? & ? & _).
  - simpl. destruct u as [|u].
    + destruct Hat as (c' & ws & [= <-] & -> & Hs). simpl. by rewrite Hs.
    + destruct (Hbefore 0%nat c) as (ws & s & Hws & Hs); [lia | done |].
      rewrite Hws. simpl. rewrite Hs.
      rewrite (IH u); [done|]. split; [|exact Hat].
      intros u' c' Hu' Hc'. apply (Hbefore (S u') c'); [lia | done].
Qed.

(** Over non-negative, in-range item indices the loop does not panic: it
    returns one sampler per user, or stops at the first user whose sampler
    cannot be built. *)
Lemma initUserItemsSamplers_total (itemWeights : list float)
    (usersToItems : list (list Z)) :
  items_in_range (Z.of_nat (length itemWeights)) usersToItems ->
  (exists samplers,
     initUserItemsSamplers itemWeights usersToItems = Val (samplers, None)) \/
  (exists u cause, sampler_fails_at itemWeights usersToItems u cause).
Proof.
  induction 1 as [|c rest Hc Hrest IH].
  - left. by eexists.
  - destruct (collectionWeights_total itemWeights c Hc) as [ws Hws].
    destruct (NewAliasSampler ws) as [s|e] eqn:Hs.
    + destruct IH as [[ss Hss]|(u & cause & Hbefore & Hat)].
      * left. simpl. rewrite Hws. simpl. rewrite Hs, Hss. simpl. by eexists.
      * right. exists (S u), cause. split; [|exact Hat].
        intros [|u'] c' Hu' Hc'; simpl in Hc'.
        -- simplify_eq. eauto.
        -- apply (Hbefore u' c'); [lia | done].
    + right. exists 0%nat, e. split; [intros; lia|]. by exists c, ws.
Qed.

(** ** [NewBird] *)

Lemma NewBird_BirdAt (randSource : Rand) (cfg : BirdCfg) (itemWeights : list float)
    (usersToItems : list (list Z)) (b : Bird) (err : option error) :
  NewBird randSource cfg itemWeights usersToItems = Val (BirdAt b, err) ->
  err = None /\ Cfg b = cfg /\ ItemWeights b = itemWeights /\
  UsersToItems b = usersToItems /\ RandSource b = randSource /\
  permuteAdjacencyList (Z.of_nat (length itemWeights)) usersToItems
    = Val (ItemsToUsers b) /\
  initUserItemsSamplers itemWeights usersToItems
    = Val (UserItemsSamplers b, None) /\
  ~ invalid_inputs cfg itemWeights usersToItems.
Proof.
  unfold NewBird. intros H.
  destruct (Z.ltb_spec (Depth cfg) 1); [done|].
  destruct (Z.ltb_spec (Draws cfg) 1); [done|].
  destruct (validateBirdInputs itemWeights usersToItems) eqn:Hv; [done|].
  apply bindE_Val in H as ([ss [e|]] & Hss & H); [done|].
  apply bindE_Val in H as (i2u & Hi2u & H). simplify_eq. simpl.
  repeat split; try done. by apply not_invalid_inputs.
Qed.

Lemma NewBird_ok (randSource : Rand) (cfg : BirdCfg) (itemWeights : list float)
    (usersToItems : list (list Z)) (b : Bird) (err : option error) :
  NewBird randSource cfg itemWeights usersToItems = Val (BirdAt b, err) ->
  bird_ok b.
Proof.
  intros (_ & <- & <- & <- & _ & Hperm & Hinit & Hvalid)%NewBird_BirdAt.
  apply not_invalid_inputs in Hvalid as (? & ? & Hv).
  apply validateBirdInputs_None in Hv as (Hiw & Hu2i & _).
  apply permuteAdjacencyList_Val in Hperm as (_ & Hrange & Hlen & Hcount).
  apply initUserItemsSamplers_None in Hinit as [Hss _].
  constructor; try done.
  - destruct (ItemWeights b); [done | simpl; lia].
  - destruct (UsersToItems b); [done | simpl; lia].
  - lia.
Qed.

(** ** Seeds *)

Lemma queryWeights_Val (b : Bird) (query : list QueryItem) (weights : list float) :
  queryWeights b query = Val weights ->
  length weights = length query /\
  Forall (fun q => 0 <= Item q < Z.of_nat (length (ItemWeights b))) query.
Proof.
  intros H%mapE_Val. split; [symmetry; by eapply Forall2_length|].
  induction H as [|q w qs ws Hq _ IH]; constructor; [|done].
  apply bindE_Val in Hq as (? & Hq & _). by eapply index_Val_range.
Qed.

Lemma queryWeights_total (b : Bird) (query : list QueryItem) :
  Forall (fun q => 0 <= Item q < Z.of_nat (length (ItemWeights b))) query ->
  exists weights, queryWeights b query = Val weights.
Proof.
  intros H. apply mapE_total. eapply Forall_impl; [exact H|].
  intros q Hq. destruct (index_in_range (ItemWeights b) (Item q) Hq) as [w ->].
  by eexists.
Qed.

Lemma keepSampled_Val (b : Bird) (items drawn : list Z) (i : nat)
    (sampledItems out : list Z) :
  keepSampled b items drawn (Z.of_nat i) sampledItems = Val out ->
  length out = length sampledItems /\
  (forall j, (j < i)%nat -> out !! j = sampledItems !! j) /\
  forall k iid, drawn !! k = Some iid ->
    exists item, index items iid = Val item /\
      0 <= item < Z.of_nat (length (ItemsToUsers b)) /\
      out !! (i + k)%nat = slot b item (sampledItems !! (i + k)%nat).
Proof.
  revert i sampledItems. induction drawn as [|iid rest IH];
    intros i acc H; simpl in H.
  - simplify_eq. split; [done|]. split; [done|]. intros k iid Hk. done.
  - apply bindE_Val in H as (item & Hitem & H).
    apply bindE_Val in H as (users & Husers & H).
    pose proof (index_Val_range _ _ _ Husers) as Hrange.
    pose proof (index_row _ _ _ Husers) as <-.
    replace (Z.of_nat i + 1) with (Z.of_nat (S i)) in H by lia.
    destruct (Nat.eqb_spec (length (row (ItemsToUsers b) item)) 0)
      as [Hempty|Hfull].
    + apply IH in H as (Hlen & Hbefore & Hslots).
      repeat split; [done | intros; apply Hbefore; lia |].
      intros [|k] iid' Hk; simpl in Hk.
      * simplify_eq. exists item. split; [done|]. split; [done|].
        rewrite Nat.add_0_r, Hbefore by lia.
        unfold slot. by rewrite Hempty.
      * destruct (Hslots k iid' Hk) as (item' & ? & ? & Hout).
        exists item'. split; [done|]. split; [done|].
        by replace (i + S k)%nat with (S i + k)%nat by lia.
    + apply bindE_Val in H as (acc' & Hacc' & H).
      apply store_Val in Hacc' as [Hi ->]. rewrite Nat2Z.id in H.
      apply IH in H as (Hlen & Hbefore & Hslots). rewrite length_insert in Hlen.
      repeat split; [done | |].
      * intros j Hj. rewrite Hbefore by lia.
        apply list_lookup_insert_ne. lia.
      * intros [|k] iid' Hk; simpl in Hk.
        -- simplify_eq. exists item. split; [done|]. split; [done|].
           rewrite Nat.add_0_r, Hbefore by lia.
           rewrite list_lookup_insert_eq by lia.
           unfold slot.
           by destruct (Nat.eqb_spec (length (row (ItemsToUsers b) item)) 0).
        -- destruct (Hslots k iid' Hk) as (item' & ? & ? & Hout).
           exists item'. split; [done|]. split; [done|].
           replace (i + S k)%nat with (S i + k)%nat by lia.
           rewrite Hout. f_equal. apply list_lookup_insert_ne. lia.
Qed.

Lemma keepSampled_total (b : Bird) (items drawn : list Z) (i : nat)
    (sampledItems : list Z) :
  Forall (fun iid => 0 <= iid < Z.of_nat (length items)) drawn ->
  Forall (fun item => 0 <= item < Z.of_nat (length (ItemsToUsers b))) items ->
  (i + length drawn <= length sampledItems)%nat ->
  exists out, keepSampled b items drawn (Z.of_nat i) sampledItems = Val out.
Proof.
  intros Hdrawn Hitems. revert i sampledItems.
  induction Hdrawn as [|iid rest Hiid _ IH]; intros i acc Hlen; simpl;
    [by eexists|].
  destruct (index_in_range items iid Hiid) as [item Hitem]. rewrite Hitem. simpl.
  assert (0 <= item < Z.of_nat (length (ItemsToUsers b))) as Hrange.
  { apply index_Val in Hitem as [_ Hitem].
    rewrite Forall_lookup in Hitems. eauto. }
  destruct (index_in_range _ item Hrange) as [users ->]. simpl.
  replace (Z.of_nat i + 1) with (Z.of_nat (S i)) by lia. simpl in Hlen.
  destruct (length users =? 0)%nat.
  - apply IH. lia.
  - rewrite (proj2 (store_Val acc _ (Z.of_nat i) item)) by (split; [lia | done]).
    simpl. apply IH. rewrite length_insert. lia.
Qed.

Lemma sampleItemsFromQuery_Val (b : Bird) (query : list QueryItem) (r r' : Rand)
    (seeds : list Z) :
  sampleItemsFromQuery b query r = Val ((seeds, None), r') ->
  exists weights s drawn,
    queryWeights b query = Val weights /\
    NewAliasSampler weights = inl s /\
    Sample s (Draws (Cfg b)) r = Val (drawn, r') /\
    Z.of_nat (length seeds) = Draws (Cfg b) /\
    length drawn = length seeds /\
    forall i iid, drawn !! i = Some iid ->
      exists q, 0 <= iid /\ query !! Z.to_nat iid = Some q /\
        0 <= Item q < Z.of_nat (length (ItemsToUsers b)) /\
        seeds !! i = slot b (Item q) (Some 0).
Proof.
  unfold sampleItemsFromQuery. intros H.
  apply bind_Val in H as (weights & r1 & [Hw ->]%liftE_Val & H).
  destruct (NewAliasSampler weights) as [s|e] eqn:Hs; [|by inv_run].
  apply bind_Val in H as (zs & r1 & [Hzs ->]%liftE_Val & H).
  apply bind_Val in H as (drawn & r1 & Hdrawn & H).
  apply bind_Val in H as (out & r2 & [Hout ->]%liftE_Val & H).
  destruct (length out =? 0)%nat; apply ret_Val in H as [[= <-] ->].
  apply make_Val in Hzs as [Hdraws ->].
  apply (keepSampled_Val b _ _ 0%nat) in Hout as (Hlen & _ & Hslots).
  rewrite length_replicate in Hlen.
  pose proof (Sample_length _ _ _ _ _ Hdrawn) as Hlen'.
  exists weights, s, drawn. repeat split; try done; try lia.
  intros i iid Hi. destruct (Hslots i iid Hi) as (item & Hitem & Hrange & Hslot).
  apply index_Val in Hitem as [Hiid Hitem].
  rewrite list_lookup_fmap in Hitem.
  destruct (query !! Z.to_nat iid) as [q|] eqn:Hq; [|done].
  simpl in Hitem. simplify_eq. exists q. repeat split; try done; try lia.
  simpl in Hslot. rewrite Hslot. f_equal.
  apply lookup_replicate_2. apply lookup_lt_Some in Hi. lia.
Qed.

(** Every seed is an item of the graph, as soon as the graph has an item 0. *)
Lemma sampleItemsFromQuery_seeds (b : Bird) (query : list QueryItem)
    (r r' : Rand) (seeds : list Z) :
  (1 <= length (ItemsToUsers b))%nat ->
  sampleItemsFromQuery b query r = Val ((seeds, None), r') ->
  Forall (fun item => 0 <= item < Z.of_nat (length (ItemsToUsers b))) seeds.
Proof.
  intros Hone (ws & s & drawn & _ & _ & _ & _ & Hlen & Hslots)%sampleItemsFromQuery_Val.
  apply Forall_lookup. intros i seed Hi.
  destruct (lookup_lt_is_Some_2 drawn i) as [iid Hiid].
  { rewrite Hlen. by eapply lookup_lt_Some. }
  destruct (Hslots i iid Hiid) as (q & _ & _ & Hrange & Hslot).
  rewrite Hi in Hslot. unfold slot in Hslot.
  destruct (_ =? _)%nat; simplify_eq; lia.
Qed.

(** ** One hop *)

Lemma chooseReferrers_Val (b : Bird) (items : list Z) (r r' : Rand)
    (referrers : list Z) (err : option error) :
  chooseReferrers b items r = Val ((referrers, err), r') ->
  match err with
  | None => Forall2 (fun item user => user ∈ row (ItemsToUsers b) item)
                    items referrers
  | Some e => referrers = [] /\
      exists item, e = NoOneInteracted item /\ item ∈ items /\
                   0 <= item < Z.of_nat (length (ItemsToUsers b)) /\
                   row (ItemsToUsers b) item = []
  end.
Proof.
  revert r r' referrers err. induction items as [|item rest IH];
    intros r r' referrers err H; simpl in H.
  - apply ret_Val in H as [[= -> ->] _]. constructor.
  - apply bind_Val in H as (users & r1 & [Husers ->]%liftE_Val & H).
    pose proof (index_Val_range _ _ _ Husers) as Hrange.
    pose proof (index_row _ _ _ Husers) as Hrow.
    destruct (Nat.eqb_spec (length users) 0) as [Hempty|Hfull].
    + apply ret_Val in H as [[= -> ->] _]. split; [done|].
      exists item. repeat split; [by left | lia.. |].
      rewrite Hrow. by destruct users.
    + apply bind_Val in H as (k & r1 & Hk & H).
      apply bind_Val in H as (user & r2 & [Huser ->]%liftE_Val & H).
      apply bind_Val in H as ([refs [e|]] & r3 & Hrest & H);
        apply ret_Val in H as [[= -> ->] _]; apply IH in Hrest.
      * destruct Hrest as (_ & item' & -> & ? & ? & ?). split; [done|].
        exists item'. repeat split; try done; try lia. by right.
      * constructor; [|done]. rewrite Hrow.
        apply index_Val in Huser as [_ Huser]. by eapply list_elem_of_lookup_2.
Qed.

Lemma mapR_length {A B} (f : A -> M B) (l : list A) (r r' : Rand) (out : list B) :
  mapR f l r = Val (out, r') -> length out = length l.
Proof.
  revert r r' out. induction l as [|x l IH]; intros r r' out H; simpl in H.
  - by apply ret_Val in H as [-> _].
  - apply bind_Val in H as (y & r1 & _ & H).
    apply bind_Val in H as (ys & r2 & Hys & H).
    apply ret_Val in H as [-> _]. simpl. f_equal. eauto.
Qed.

(** A hop returns one new item and one referrer per incoming item, or an
    error and nothing else. *)
Lemma step_Val (b : Bird) (items : list Z) (r r' : Rand)
    (newItems referrers : list Z) (err : option error) :
  step b items r = Val ((newItems, referrers, err), r') ->
  match err with
  | None => length newItems = length items /\ length referrers = length items /\
            Forall2 (fun item user => user ∈ row (ItemsToUsers b) item)
                    items referrers
  | Some e => newItems = [] /\ referrers = [] /\
      exists item, e = NoOneInteracted item /\ item ∈ items /\
                   0 <= item < Z.of_nat (length (ItemsToUsers b)) /\
                   row (ItemsToUsers b) item = []
  end.
Proof.
  unfold step. intros H.
  apply bind_Val in H as ([refs [e|]] & r1 & Hrefs & H);
    apply chooseReferrers_Val in Hrefs.
  - apply ret_Val in H as [[= -> -> ->] _]. by destruct Hrefs as [_ ?].
  - apply bind_Val in H as (out & r2 & Hout & H).
    apply ret_Val in H as [[= -> -> ->] _].
    apply mapR_length in Hout. apply Forall2_length in Hrefs as Hlen.
    repeat split; [lia | done | done].
Qed.

(** ** The depth loop *)

Lemma walk_Val (b : Bird) (stepItems : list Z) (rounds : nat)
    (items referrers : list Z) (r r' : Rand)
    (items' referrers' : list Z) (err : option error) :
  walk b stepItems rounds items referrers r = Val ((items', referrers', err), r') ->
  match err with
  | None =>
      length items' = (length items + rounds * length stepItems)%nat /\
      length referrers' = (length referrers + rounds * length stepItems)%nat
  | Some e => items' = [] /\ referrers' = [] /\
      exists item, e = Wrap (NoOneInteracted item) "cannot step through items" /\
                   item ∈ stepItems /\
                   0 <= item < Z.of_nat (length (ItemsToUsers b)) /\
                   row (ItemsToUsers b) item = []
  end.
Proof.
  revert items referrers r r'. induction rounds as [|rounds IH];
    intros items referrers r r' H; simpl in H.
  - apply ret_Val in H as [[= -> -> ->] _]. lia.
  - apply bind_Val in H as ([[new refs] [e|]] & r1 & Hstep & H);
      apply step_Val in Hstep.
    + apply ret_Val in H as [[= -> -> ->] _].
      destruct Hstep as (_ & _ & item & -> & ?). eauto.
    + apply IH in H. destruct err; [done|].
      rewrite !length_app in H. lia.
Qed.

(** ** [Process] *)

Lemma Process_Val (b : Bird) (query : list QueryItem) (r r' : Rand)
    (items referrers : list Z) (err : option error) :
  Process b query r = Val ((items, referrers, err), r') ->
  match err with
  | None =>
      Z.of_nat (length items) = Z.of_nat (Z.to_nat (Depth (Cfg b))) * Draws (Cfg b) /\
      Z.of_nat (length referrers) = Z.of_nat (Z.to_nat (Depth (Cfg b))) * Draws (Cfg b)
  | Some e => items = [] /\ referrers = []
  end.
Proof.
  unfold Process. intros H. destruct (length query =? 0)%nat.
  { by apply ret_Val in H as [[= -> -> ->] _]. }
  apply bind_Val in H as ([seeds [e|]] & r1 & Hseeds & H).
  { by apply ret_Val in H as [[= -> -> ->] _]. }
  apply sampleItemsFromQuery_Val in Hseeds as (_ & _ & _ & _ & _ & _ & Hlen & _).
  apply walk_Val in H. destruct err; [by destruct H as (? & ? & _)|].
  simpl in H. nia.
Qed.

(** ** Absence of panics on a constructed walker *)

Lemma count_pos_elem (x : Z) (l : list Z) : x ∈ l <-> (0 < count x l)%nat.
Proof.
  unfold count. rewrite list_elem_of_In. apply (count_occ_In Z.eq_dec).
Qed.

(** Every user of a reverse row is a user of the graph. *)
Lemma referrer_in_range (b : Bird) (item user : Z) :
  bird_ok b -> user ∈ row (ItemsToUsers b) item ->
  0 <= user < Z.of_nat (length (UsersToItems b)).
Proof.
  intros Hok Hin. apply count_pos_elem in Hin. rewrite (ok_reverse b Hok) in Hin.
  destruct (Z.lt_ge_cases user 0) as [Hneg|Hpos];
    [rewrite row_outside in Hin by lia; unfold count in Hin; simpl in Hin; lia|].
  destruct (Z.lt_ge_cases user (Z.of_nat (length (UsersToItems b)))); [lia|].
  rewrite row_outside in Hin by lia. unfold count in Hin; simpl in Hin; lia.
Qed.

Lemma sampleItem_total (b : Bird) (user : Z) (r : Rand) :
  bird_ok b -> 0 <= user < Z.of_nat (length (UsersToItems b)) ->
  exists item r', sampleItem b user r = Val (item, r').
Proof.
  intros Hok Huser. pose proof (ok_samplers b Hok) as Hss.
  destruct (index_in_range (UsersToItems b) user Huser) as [c Hc].
  destruct (index_in_range (UserItemsSamplers b) user) as [s Hs].
  { by rewrite (Forall2_length _ _ _ Hss). }
  assert (sampler_ok (length c) s) as Hsok.
  { apply index_Val in Hc as [_ Hc]. apply index_Val in Hs as [_ Hs].
    exact (Forall2_lookup_lr _ _ _ _ _ _ Hss Hs Hc). }
  destruct (Sample_total _ s 1 r Hsok) as (l & r' & Hl & Hlen & Hall).
  destruct l as [|j [|]]; try done. apply Forall_cons in Hall as [Hj _].
  destruct (index_in_range c j Hj) as [item Hitem].
  exists item, r'. unfold sampleItem, bind, liftE.
  rewrite Hs, Hc, Hl. simpl. by rewrite Hitem.
Qed.

Lemma mapR_total {A B} (f : A -> M B) (l : list A) (r : Rand) :
  Forall (fun x => forall r, exists y r', f x r = Val (y, r')) l ->
  exists out r', mapR f l r = Val (out, r').
Proof.
  intros H. revert r. induction H as [|x l Hx _ IH]; intros r; simpl.
  - by eexists _, _.
  - destruct (Hx r) as (y & r1 & Hy). destruct (IH r1) as (ys & r2 & Hys).
    unfold bind. rewrite Hy, Hys. by eexists _, _.
Qed.

Lemma chooseReferrers_total (b : Bird) (items : list Z) (r : Rand) :
  Forall (fun item => 0 <= item < Z.of_nat (length (ItemsToUsers b))) items ->
  exists referrers err r',
    chooseReferrers b items r = Val ((referrers, err), r').
Proof.
  intros H. revert r. induction H as [|item rest Hitem _ IH]; intros r; simpl.
  - by eexists _, _, _.
  - destruct (index_in_range _ item Hitem) as [users Husers].
    unfold bind at 1. unfold liftE at 1. rewrite Husers.
    destruct (Nat.eqb_spec (length users) 0) as [Hempty|Hfull];
      [by eexists _, _, _|].
    destruct (Intn_total (Z.of_nat (length users)) r) as (k & Hk & Hrange);
      [lia|].
    destruct (index_in_range users k Hrange) as [user Huser].
    destruct (IH (advance r)) as (refs & err & r' & Hrest).
    unfold bind, liftE. rewrite Hk, Huser, Hrest.
    destruct err; by eexists _, _, _.
Qed.

Lemma step_total (b : Bird) (items : list Z) (r : Rand) :
  bird_ok b ->
  Forall (fun item => 0 <= item < Z.of_nat (length (ItemsToUsers b))) items ->
  exists out r', step b items r = Val (out, r').
Proof.
  intros Hok Hitems.
  destruct (chooseReferrers_total b items r Hitems) as (refs & err & r1 & Hrefs).
  unfold step, bind at 1. rewrite Hrefs.
  pose proof (chooseReferrers_Val _ _ _ _ _ _ Hrefs) as Hin.
  destruct err; [by eexists _, _|].
  destruct (mapR_total (sampleItem b) refs r1) as (new & r2 & Hnew).
  { apply Forall_forall. intros user Huser r0.
    apply list_elem_of_lookup in Huser as [i Hi].
    destruct (Forall2_lookup_r _ _ _ _ _ Hin Hi) as (item & _ & Hmem).
    apply sampleItem_total; [done|]. by eapply referrer_in_range. }
  unfold bind. rewrite Hnew. by eexists _, _.
Qed.

Lemma walk_total (b : Bird) (stepItems : list Z) (rounds : nat)
    (items referrers : list Z) (r : Rand) :
  bird_ok b ->
  Forall (fun item => 0 <= item < Z.of_nat (length (ItemsToUsers b))) stepItems ->
  exists out r', walk b stepItems rounds items referrers r = Val (out, r').
Proof.
  intros Hok Hitems. revert items referrers r.
  induction rounds as [|rounds IH]; intros items referrers r; simpl.
  - by eexists _, _.
  - destruct (step_total b stepItems r Hok Hitems) as ([[new refs] err] & r1 & Hstep).
    unfold bind. rewrite Hstep. destruct err; [by eexists _, _|]. apply IH.
Qed.

(** * The properties *)



(** C3.  When [sampleItemsFromQuery] returns seeds, there are exactly
    [Cfg.Draws] of them, one per sampled position of the query; the seed of
    a position whose query item has an empty reverse-adjacency list is left
    at the default 0, and the seed of any other position is the query item
    itself. *)
Theorem sampleItemsFromQuery_default_slot (b : Bird) (query : list QueryItem)
    (r r' : Rand) (seeds : list Z) :
  sampleItemsFromQuery b query r = Val ((seeds, None), r') ->
  Z.of_nat (length seeds) = Draws (Cfg b) /\
  exists weights s drawn,
    queryWeights b query = Val weights /\
    NewAliasSampler weights = inl s /\
    Sample s (Draws (Cfg b)) r = Val (drawn, r') /\
    length drawn = length seeds /\
    forall i iid, drawn !! i = Some iid ->
      exists q, 0 <= iid /\ query !! Z.to_nat iid = Some q /\
        (row (ItemsToUsers b) (Item q) = [] -> seeds !! i = Some 0) /\
        (row (ItemsToUsers b) (Item q) <> [] -> seeds !! i = Some (Item q)).
Proof.
  intros (ws & s & drawn & Hws & Hs & Hdrawn & Hlen & Hdl & Hslots)%sampleItemsFromQuery_Val.
  split; [done|]. exists ws, s, drawn. repeat split; try done.
  intros i iid Hi. destruct (Hslots i iid Hi) as (q & Hiid & Hq & _ & Hslot).
  exists q. repeat split; try done; unfold slot in Hslot.
  - intros Hrow. by rewrite Hrow in Hslot.
  - intros Hrow. by destruct (row (ItemsToUsers b) (Item q)).
Qed.

Lemma sampleItemsFromQuery_default_slot_witness :
  let b := lonely_bird (mkBirdCfg 1 3) zeroes in
  let query := [mkQueryItem 2 1%float; mkQueryItem 1 1%float] in
  let r := tape [0; 0; 1; 0; 0; 0] in
  sampleItemsFromQuery b query r = Val (([0; 1; 0], None), mkRand (raw r) 6) /\
  exists weights s drawn,
    queryWeights b query = Val weights /\
    NewAliasSampler weights = inl s /\
    Sample s 3 r = Val (drawn, mkRand (raw r) 6) /\
    length drawn = 3%nat /\
    forall i iid, drawn !! i = Some iid ->
      exists q, 0 <= iid /\ query !! Z.to_nat iid = Some q /\
        (row (ItemsToUsers b) (Item q) = [] -> [0; 1; 0] !! i = Some 0) /\
        (row (ItemsToUsers b) (Item q) <> [] -> [0; 1; 0] !! i = Some (Item q)).
Proof.
  assert (sampleItemsFromQuery (lonely_bird (mkBirdCfg 1 3) zeroes)
            [mkQueryItem 2 1%float; mkQueryItem 1 1%float]
            (tape [0; 0; 1; 0; 0; 0])
          = Val (([0; 1; 0], None), mkRand (raw (tape [0; 0; 1; 0; 0; 0])) 6))
    as Hrun by (vm_compute; reflexivity).
  split; [exact Hrun|].
  exact (proj2 (sampleItemsFromQuery_default_slot _ _ _ _ _ Hrun)).
Defined.

(** C4.  On a walker that [NewBird] built with depth [d] and draws [k],
    whenever [Process] returns without error its two sequences, items and
    referrers, both have length [d * k]. *)
Theorem Process_output_length (randSource : Rand) (cfg : BirdCfg)
    (itemWeights : list float) (usersToItems : list (list Z)) (b : Bird)
    (query : list QueryItem) (r r' : Rand) (items referrers : list Z) :
  NewBird randSource cfg itemWeights usersToItems = Val (BirdAt b, None) ->
  Process b query r = Val ((items, referrers, None), r') ->
  Z.of_nat (length items) = Depth cfg * Draws cfg /\
  Z.of_nat (length referrers) = Depth cfg * Draws cfg.
Proof.
  intros Hnew Hrun. pose proof (NewBird_ok _ _ _ _ _ _ Hnew) as Hok.
  apply NewBird_BirdAt in Hnew as (_ & <- & _).
  apply Process_Val in Hrun. pose proof (ok_depth b Hok).
  rewrite Z2Nat.id in Hrun by lia. done.
Qed.

Lemma Process_output_length_witness :
  NewBird zeroes (mkBirdCfg 2 3) [1%float; 1%float; 1%float] chain_graph
    = Val (BirdAt (chain_bird (mkBirdCfg 2 3) zeroes), None) /\
  Process (chain_bird (mkBirdCfg 2 3) zeroes) [mkQueryItem 0 1%float] ones
    = Val (([1; 1; 1; 1; 1; 1], [0; 0; 0; 0; 0; 0], None), mkRand (raw ones) 24) /\
  Z.of_nat (length [1; 1; 1; 1; 1; 1]) = 2 * 3 /\
  Z.of_nat (length [0; 0; 0; 0; 0; 0]) = 2 * 3.
Proof.
  assert (NewBird zeroes (mkBirdCfg 2 3) [1%float; 1%float; 1%float] chain_graph
          = Val (BirdAt (chain_bird (mkBirdCfg 2 3) zeroes), None)) as Hnew
    by (vm_compute; reflexivity).
  assert (Process (chain_bird (mkBirdCfg 2 3) zeroes) [mkQueryItem 0 1%float] ones
          = Val (([1; 1; 1; 1; 1; 1], [0; 0; 0; 0; 0; 0], None),
                 mkRand (raw ones) 24)) as Hrun
    by (vm_compute; reflexivity).
  split; [exact Hnew|]. split; [exact Hrun|].
  exact (Process_output_length _ _ _ _ _ _ _ _ _ _ Hnew Hrun).
Defined.

(** C6.  On a walker that [NewBird] built: if one of the seeds the hops work
    on has an empty reverse-adjacency list, [Process] returns the error of
    that item, wrapped, and two empty sequences; and whatever [Process]
    returns is either two sequences of the full length [depth * draws] with
    no error, or an error with two empty sequences; never a shorter
    result. *)
Theorem Process_no_partial_result (randSource : Rand) (cfg : BirdCfg)
    (itemWeights : list float) (usersToItems : list (list Z)) (b : Bird)
    (query : list QueryItem) (r : Rand) :
  NewBird randSource cfg itemWeights usersToItems = Val (BirdAt b, None) ->
  (forall seeds r1 orphan,
     sampleItemsFromQuery b query r = Val ((seeds, None), r1) ->
     orphan ∈ seeds -> row (ItemsToUsers b) orphan = [] ->
     exists item r',
       item ∈ seeds /\ row (ItemsToUsers b) item = [] /\
       Process b query r =
       Val (([], [], Some (Wrap (NoOneInteracted item)
                             "cannot step through items")), r')) /\
  (forall items referrers err r',
     Process b query r = Val ((items, referrers, err), r') ->
     match err with
     | None => Z.of_nat (length items) = Depth cfg * Draws cfg /\
               Z.of_nat (length referrers) = Depth cfg * Draws cfg
     | Some _ => items = [] /\ referrers = []
     end).
Proof.
  intros Hnew. pose proof (NewBird_ok _ _ _ _ _ _ Hnew) as Hok.
  apply NewBird_BirdAt in Hnew as (_ & <- & _).
  pose proof (ok_depth b Hok) as Hdepth. split.
  - intros seeds r1 orphan Hseeds Horphan Hrow.
    assert (Forall (fun item => 0 <= item < Z.of_nat (length (ItemsToUsers b)))
                   seeds) as Hrange.
    { eapply sampleItemsFromQuery_seeds; [|exact Hseeds].
      rewrite (ok_reverse_len b Hok). apply (ok_items b Hok). }
    assert (length query <> 0)%nat as Hquery.
    { apply sampleItemsFromQuery_Val in Hseeds
        as (ws & s & _ & Hws & Hs & _).
      apply NewAliasSampler_ok in Hs as [Hone _].
      apply queryWeights_Val in Hws as [Hlen _]. lia. }
    destruct (step_total b seeds r1 Hok Hrange) as ([[new refs] err] & r2 & Hstep).
    pose proof (step_Val _ _ _ _ _ _ _ Hstep) as Hshape.
    destruct err as [e|].
    + destruct Hshape as (_ & _ & item & -> & Hin & _ & Hempty).
      exists item, r2. repeat split; try done.
      unfold Process. destruct (Nat.eqb_spec (length query) 0); [done|].
      unfold bind at 1. rewrite Hseeds.
      destruct (Z.to_nat (Depth (Cfg b))) as [|rounds] eqn:Hrounds; [lia|].
      simpl. unfold bind. by rewrite Hstep.
    + exfalso. destruct Hshape as (_ & _ & Hall).
      apply list_elem_of_lookup in Horphan as [i Hi].
      destruct (Forall2_lookup_l _ _ _ _ _ Hall Hi) as (user & _ & Huser).
      rewrite Hrow in Huser. by apply elem_of_nil in Huser.
  - intros items referrers err r' Hrun. apply Process_Val in Hrun.
    destruct err; [done|]. rewrite Z2Nat.id in Hrun by lia. done.
Qed.

Lemma Process_no_partial_result_witness :
  let b := orphan_bird (mkBirdCfg 1 2) zeroes in
  let query := [mkQueryItem 0 1%float] in
  sampleItemsFromQuery b query zeroes = Val (([0; 0], None), mkRand (raw zeroes) 4) /\
  (exists item r',
     item ∈ [0; 0] /\ row (ItemsToUsers b) item = [] /\
     Process b query zeroes =
     Val (([], [], Some (Wrap (NoOneInteracted item)
                           "cannot step through items")), r')) /\
  Process b query zeroes =
    Val (([], [], Some (Wrap (NoOneInteracted 0) "cannot step through items")),
         mkRand (raw zeroes) 4).
Proof.
  assert (NewBird zeroes (mkBirdCfg 1 2) [1%float; 1%float] [[1]]
          = Val (BirdAt (orphan_bird (mkBirdCfg 1 2) zeroes), None)) as Hnew
    by (vm_compute; reflexivity).
  assert (sampleItemsFromQuery (orphan_bird (mkBirdCfg 1 2) zeroes)
            [mkQueryItem 0 1%float] zeroes
          = Val (([0; 0], None), mkRand (raw zeroes) 4)) as Hseeds
    by (vm_compute; reflexivity).
  split; [exact Hseeds|]. split; [|vm_compute; reflexivity].
  apply (proj1 (Process_no_partial_result _ _ _ _ _ [mkQueryItem 0 1%float]
                  zeroes Hnew) [0; 0] _ 0 Hseeds).
  - by left.
  - reflexivity.
Defined.

(** ** The panics of an in-range query *)

Lemma make_Panic {A} (zero : A) (n : Z) (p : panic) :
  make zero n = Panic p -> p = MakeSliceLenOutOfRange n.
Proof. unfold make. destruct (n <? 0); by intros [= <-]. Qed.

Lemma bind_liftE_Val {A B} (a : A) (k : A -> M B) (r : Rand) :
  bind (liftE (Val a)) k r = k a r.
Proof. reflexivity. Qed.

Lemma bind_liftE_Panic {A B} (p : panic) (k : A -> M B) (r : Rand) :
  bind (liftE (@Panic A p)) k r = Panic p.
Proof. reflexivity. Qed.

Lemma bind_run {A B} (c : M A) (k : A -> M B) (r r' : Rand) (a : A) :
  c r = Val (a, r') -> bind c k r = k a r'.
Proof. intros H. unfold bind. by rewrite H. Qed.

(** Past the allocation of the seed slice nothing can panic; the proof
    reads [make] only through what it returns when it returns and through
    the kind of its panic. *)
Lemma sampleItemsFromQuery_outcome (b : Bird) (query : list QueryItem) (r : Rand) :
  bird_ok b ->
  Forall (fun q => 0 <= Item q < Z.of_nat (length (ItemWeights b))) query ->
  (exists out r', sampleItemsFromQuery b query r = Val (out, r')) \/
  (exists n, sampleItemsFromQuery b query r = Panic (MakeSliceLenOutOfRange n)).
Proof.
  intros Hok Hquery. unfold sampleItemsFromQuery.
  destruct (queryWeights_total b query Hquery) as [ws Hws].
  rewrite Hws, bind_liftE_Val. cbv zeta.
  destruct (NewAliasSampler ws) as [s|e] eqn:Hs; [|left; by eexists _, _].
  apply NewAliasSampler_ok in Hs.
  apply queryWeights_Val in Hws as [Hlen _]. rewrite Hlen in Hs.
  destruct (make 0 (Draws (Cfg b))) as [zs|p] eqn:Hmake.
  2: { right. apply make_Panic in Hmake as ->. rewrite bind_liftE_Panic.
       by eexists. }
  left. apply make_Val in Hmake as [Hnonneg ->]. rewrite bind_liftE_Val.
  destruct (Sample_total _ s (Draws (Cfg b)) r Hs) as (drawn & r1 & Hdrawn & Hdl & Hall).
  rewrite (bind_run _ _ _ _ _ Hdrawn).
  destruct (keepSampled_total b (map Item query) drawn 0
              (replicate (Z.to_nat (Draws (Cfg b))) 0)) as [out Hout].
  - by rewrite length_map.
  - apply Forall_fmap. eapply Forall_impl; [exact Hquery|]. simpl.
    intros q Hq. by rewrite (ok_reverse_len b Hok).
  - rewrite length_replicate. lia.
  - change (Z.of_nat 0) with 0 in Hout. rewrite Hout, bind_liftE_Val.
    destruct (length out =? 0)%nat; by eexists _, _.
Qed.

Lemma Process_outcome (b : Bird) (query : list QueryItem) (r : Rand) :
  bird_ok b ->
  Forall (fun q => 0 <= Item q < Z.of_nat (length (ItemWeights b))) query ->
  (exists out r', Process b query r = Val (out, r')) \/
  (exists n, Process b query r = Panic (MakeSliceLenOutOfRange n)).
Proof.
  intros Hok Hquery. unfold Process.
  destruct (length query =? 0)%nat; [left; by eexists _, _|].
  destruct (sampleItemsFromQuery_outcome b query r Hok Hquery)
    as [([seeds err] & r1 & Hseeds)|[n Hpanic]].
  - left. unfold bind. rewrite Hseeds. destruct err; [by eexists _, _|].
    apply walk_total; [done|].
    eapply sampleItemsFromQuery_seeds; [|exact Hseeds].
    rewrite (ok_reverse_len b Hok). apply (ok_items b Hok).
  - right. exists n. unfold bind. by rewrite Hpanic.
Qed.

Lemma Process_no_index_panic (b : Bird) (query : list QueryItem) (r : Rand)
    (i : Z) (len : nat) :
  bird_ok b ->
  Forall (fun q => 0 <= Item q < Z.of_nat (length (ItemWeights b))) query ->
  Process b query r <> Panic (IndexOutOfRange i len).
Proof.
  intros Hok Hquery Hpanic.
  destruct (Process_outcome b query r Hok Hquery)
    as [(out & r' & Hrun)|[n Hmake]]; congruence.
Qed.

(** C10.  [Process] checks no query item index.  On a walker that [NewBird]
    built, a query whose item indices all lie in [0, len(ItemWeights)) never
    reaches an access out of range: no index-out-of-range panic is raised,
    whatever is drawn.  A query whose item index is [len(ItemWeights)] does
    not get an error back: the call panics on [ItemWeights[q.Item]]. *)
Theorem Process_index_safety (randSource : Rand) (cfg : BirdCfg)
    (itemWeights : list float) (usersToItems : list (list Z)) (b : Bird) :
  NewBird randSource cfg itemWeights usersToItems = Val (BirdAt b, None) ->
  (forall query r i len,
     Forall (fun q => 0 <= Item q < Z.of_nat (length (ItemWeights b))) query ->
     Process b query r <> Panic (IndexOutOfRange i len)) /\
  (forall weight r,
     Process b [mkQueryItem (Z.of_nat (length (ItemWeights b))) weight] r =
     Panic (IndexOutOfRange (Z.of_nat (length (ItemWeights b)))
                            (length (ItemWeights b)))).
Proof.
  intros Hnew. pose proof (NewBird_ok _ _ _ _ _ _ Hnew) as Hok. split.
  - intros query r i len Hquery. by apply Process_no_index_panic.
  - intros weight r. unfold Process. simpl.
    unfold bind, sampleItemsFromQuery, bind, liftE, queryWeights. simpl.
    destruct (index (ItemWeights b) (Z.of_nat (length (ItemWeights b))))
      as [w|p] eqn:Hw.
    + apply index_Val_range in Hw. lia.
    + by apply index_Panic_range in Hw as [_ ->].
Qed.

Lemma Process_index_safety_witness :
  let b := chain_bird (mkBirdCfg 2 3) zeroes in
  (forall query r i len,
     Forall (fun q => 0 <= Item q < 3) query ->
     Process b query r <> Panic (IndexOutOfRange i len)) /\
  (forall weight r,
     Process b [mkQueryItem 3 weight] r = Panic (IndexOutOfRange 3 3)).
Proof.
  assert (NewBird zeroes (mkBirdCfg 2 3) [1%float; 1%float; 1%float] chain_graph
          = Val (BirdAt (chain_bird (mkBirdCfg 2 3) zeroes), None)) as Hnew
    by (vm_compute; reflexivity).
  exact (Process_index_safety _ _ _ _ _ Hnew).
Defined.

(** ** Validation, continued *)

Lemma validateBirdInputs_Some (itemWeights : list float)
    (usersToItems : list (list Z)) (e : error) :
  validateBirdInputs itemWeights usersToItems = Some e ->
  itemWeights = [] \/ usersToItems = [] \/
  exists userItems item,
    userItems ∈ usersToItems /\ item ∈ userItems /\
    Z.of_nat (length itemWeights) <= item.
Proof.
  unfold validateBirdInputs.
  destruct itemWeights as [|w ws]; [by left|].
  destruct usersToItems as [|c cs]; [right; by left|].
  change (length (w :: ws) =? 0)%nat with false.
  change (length (c :: cs) =? 0)%nat with false. cbv iota.
  destruct (max_table (c :: cs) 0) as (_ & _ & Hin).
  fold (max_item (c :: cs)) in *. set (m := max_item (c :: cs)) in *.
  destruct (Z.leb_spec (Z.of_nat (length (w :: ws))) m) as [Hm|Hm]; [|done].
  intros _. right. right.
  destruct Hin as [Hin|(c' & Hc' & Hin)]; [simpl in Hm; lia|]. eauto.
Qed.

(** The validation errors of [NewBird]: it returns one exactly when
    [depth < 1], or [draws < 1], or [itemWeights] is empty, or [usersToItems]
    is empty, or some item index of [usersToItems] is [>= len(itemWeights)].
    A negative item index is not among them. *)
Lemma NewBird_validation_error_iff (randSource : Rand) (cfg : BirdCfg)
    (itemWeights : list float) (usersToItems : list (list Z)) :
  invalid_inputs cfg itemWeights usersToItems <->
  exists ptr e, NewBird randSource cfg itemWeights usersToItems
                = Val (ptr, Some e) /\ validation_error e.
Proof.
  split.
  - intros Hbad. unfold NewBird.
    destruct (Z.ltb_spec (Depth cfg) 1);
      [eexists _, _; split; [done | by left]|].
    destruct (Z.ltb_spec (Draws cfg) 1);
      [eexists _, _; split; [done | right; by left]|].
    destruct (validateBirdInputs itemWeights usersToItems) as [e|] eqn:Hv;
      [eexists _, _; split; [done | right; right; by eexists]|].
    exfalso. revert Hbad. apply not_invalid_inputs. auto with lia.
  - intros (ptr & e & Hnew & Hval). unfold NewBird in Hnew. unfold invalid_inputs.
    destruct (Z.ltb_spec (Depth cfg) 1); [by left|].
    destruct (Z.ltb_spec (Draws cfg) 1); [right; by left|].
    destruct (validateBirdInputs itemWeights usersToItems) as [e'|] eqn:Hv.
    { apply validateBirdInputs_Some in Hv. tauto. }
    exfalso. apply bindE_Val in Hnew as ([ss [e'|]] & _ & Hnew).
    + simplify_eq. by destruct Hval as [?|[?|[? ?]]].
    + by apply bindE_Val in Hnew as (? & _ & ?).
Qed.

Example NewBird_rejects_depth_0 :
  NewBird zeroes (mkBirdCfg 0 5) [1%float] [[0]] =
  Val (NilBird, Some (New "the depth must be greater than or equal to 1")).
Proof. reflexivity. Qed.

Example NewBird_rejects_draws_0 :
  NewBird zeroes (mkBirdCfg 1 0) [1%float] [[0]] =
  Val (NilBird,
       Some (New "the number of draws must be greater than or equal to 1")).
Proof. reflexivity. Qed.

Example NewBird_rejects_item_beyond_weights :
  NewBird zeroes (mkBirdCfg 1 5) [1%float; 1%float] [[0]; [1; 2]] =
  Val (ZeroBird,
       Some (Wrap (New "UsersToItems references more items itemWeights")
                  "invalid input")).
Proof. reflexivity. Qed.

Example NewBird_accepts_chain_graph :
  NewBird zeroes (mkBirdCfg 2 3) [1%float; 1%float; 1%float] chain_graph =
  Val (BirdAt (chain_bird (mkBirdCfg 2 3) zeroes), None).
Proof. vm_compute; reflexivity. Qed.

(** C8.  [NewBird] at depth 1, draws 1, one item weight and the adjacency
    [[-1]]: none of the rejected inputs, and no sampler whose construction
    fails, yet neither an error nor a walker comes back.  The loop of
    [validateBirdInputs] starts its maximum at 0, so the negative index
    passes the check that there is a weight for each item, and
    [initUserItemsSamplers] panics on [itemWeights[-1]]. *)
Lemma NewBird_negative_item_panics :
  ~ invalid_inputs (mkBirdCfg 1 1) [1%float] [[-1]] /\
  (forall u cause, ~ sampler_fails_at [1%float] [[-1]] u cause) /\
  NewBird zeroes (mkBirdCfg 1 1) [1%float] [[-1]]
    = Panic (IndexOutOfRange (-1) 1).
Proof.
  split; [|split].
  - apply not_invalid_inputs. repeat split; simpl; lia.
  - intros [|u] cause [Hbefore Hat].
    + by destruct Hat as (c & ws & [= <-] & Hws & _).
    + by destruct (Hbefore 0%nat [-1]) as (ws & s & Hws & _); [lia | |].
  - reflexivity.
Qed.

(** C7.  When the inputs pass validation and user [u] is the first user
    whose sampler cannot be built, for the reason [cause], [NewBird] fails
    with [cause] wrapped twice, under the messages of
    [initUserItemsSamplers] and of [NewBird].  The error is the same
    whichever user [u] is. *)
Theorem NewBird_sampler_failure_wrapped (randSource : Rand) (cfg : BirdCfg)
    (itemWeights : list float) (usersToItems : list (list Z)) (u : nat)
    (cause : SamplerError) :
  ~ invalid_inputs cfg itemWeights usersToItems ->
  sampler_fails_at itemWeights usersToItems u cause ->
  NewBird randSource cfg itemWeights usersToItems =
  Val (ZeroBird,
       Some (Wrap (Wrap (OfSampler cause)
                     "could not initialize the probability and alias tables")
                  "cannot initialize samplers")).
Proof.
  intros (Hdepth & Hdraws & Hv)%not_invalid_inputs Hfail. unfold NewBird.
  destruct (Z.ltb_spec (Depth cfg) 1); [lia|].
  destruct (Z.ltb_spec (Draws cfg) 1); [lia|].
  by rewrite Hv, (initUserItemsSamplers_fails _ _ _ _ Hfail).
Qed.

Lemma first_user_fails :
  ~ invalid_inputs (mkBirdCfg 1 1) [1%float] [[]; [0]] /\
  sampler_fails_at [1%float] [[]; [0]] 0 EmptyDistribution.
Proof.
  split.
  - apply not_invalid_inputs. repeat split; simpl; lia.
  - split; [intros; lia|]. by exists [], [].
Qed.

Lemma second_user_fails :
  ~ invalid_inputs (mkBirdCfg 1 1) [1%float] [[0]; []] /\
  sampler_fails_at [1%float] [[0]; []] 1 EmptyDistribution.
Proof.
  split.
  - apply not_invalid_inputs. repeat split; simpl; lia.
  - split; [|by exists [], []].
    intros [|u'] c Hu' Hc; [|lia]. simpl in Hc. simplify_eq.
    by eexists [1%float], _.
Qed.

Lemma NewBird_sampler_failure_wrapped_witness :
  NewBird zeroes (mkBirdCfg 1 1) [1%float] [[0]; []] =
  Val (ZeroBird,
       Some (Wrap (Wrap (OfSampler EmptyDistribution)
                     "could not initialize the probability and alias tables")
                  "cannot initialize samplers")).
Proof.
  exact (NewBird_sampler_failure_wrapped zeroes (mkBirdCfg 1 1) [1%float]
           [[0]; []] 1 EmptyDistribution
           (proj1 second_user_fails) (proj2 second_user_fails)).
Defined.

(** C7, refuted as stated: no reading of the returned error gives back the
    index of the user whose sampler failed, since a failure at user 0 and a
    failure at user 1 return the same error. *)
Lemma sampler_failure_forgets_user :
  ~ exists user_of : error -> nat,
      forall randSource cfg itemWeights usersToItems u cause ptr e,
        sampler_fails_at itemWeights usersToItems u cause ->
        NewBird randSource cfg itemWeights usersToItems = Val (ptr, Some e) ->
        user_of e = u.
Proof.
  intros [user_of H].
  pose proof (H zeroes (mkBirdCfg 1 1) [1%float] [[]; [0]] 0%nat
                EmptyDistribution _ _ (proj2 first_user_fails) eq_refl) as H0.
  pose proof (H zeroes (mkBirdCfg 1 1) [1%float] [[0]; []] 1%nat
                EmptyDistribution _ _ (proj2 second_user_fails) eq_refl) as H1.
  congruence.
Qed.

(** ** Where the hops start *)

(** Every round of the depth loop picks its referrers among the users of
    the seeds: the items a round produces are never walked from. *)
Lemma walk_referrers_of_seeds (b : Bird) (stepItems : list Z) (rounds : nat)
    (items referrers : list Z) (r r' : Rand) (items' referrers' : list Z) :
  walk b stepItems rounds items referrers r = Val ((items', referrers', None), r') ->
  exists hops : list (list Z * list Z),
    length hops = rounds /\
    items' = items ++ concat (map fst hops) /\
    referrers' = referrers ++ concat (map snd hops) /\
    Forall (fun hop =>
              length (fst hop) = length stepItems /\
              Forall2 (fun item user => user ∈ row (ItemsToUsers b) item)
                      stepItems (snd hop)) hops.
Proof.
  revert items referrers r r'. induction rounds as [|rounds IH];
    intros items referrers r r' H; simpl in H.
  - apply ret_Val in H as [[= -> ->] _]. exists [].
    simpl. rewrite !app_nil_r. repeat split; constructor.
  - apply bind_Val in H as ([[new refs] [e|]] & r1 & Hstep & H);
      [by apply ret_Val in H as [? _]|].
    apply step_Val in Hstep as (Hnew & _ & Hrefs).
    apply IH in H as (hops & Hlen & -> & -> & Hall).
    exists ((new, refs) :: hops). simpl. rewrite <- !app_assoc.
    repeat split; [by f_equal|]. by constructor.
Qed.

(** C1.  Depth 2, one draw, on the graph where user 0 holds items 0 and 1
    and user 1 holds items 1 and 2, seeded at item 0.  The first hop goes
    through user 0 to item 1.  The second hop of [Process] starts from item
    0 again and goes through user 0; started from item 1, the output of the
    first hop, the same generator goes through user 1 to item 2. *)
Theorem Process_second_hop_restarts :
  let b := chain_bird (mkBirdCfg 2 1) zeroes in
  let query := [mkQueryItem 0 1%float] in
  NewBird zeroes (mkBirdCfg 2 1) [1%float; 1%float; 1%float] chain_graph
    = Val (BirdAt b, None) /\
  output (Process b query ones) = Val ([1; 1], [0; 0], None) /\
  output (Process_chained b query ones) = Val ([1; 2], [0; 1], None).
Proof. repeat split; vm_compute; reflexivity. Qed.

(** ** The seeds that are never missing *)

Lemma sampleItemsFromQuery_error (b : Bird) (query : list QueryItem)
    (r r' : Rand) (seeds : list Z) (e : error) :
  sampleItemsFromQuery b query r = Val ((seeds, Some e), r') ->
  (exists cause, e = Wrap (OfSampler cause) "cannot create sampler") \/
  Draws (Cfg b) = 0.
Proof.
  unfold sampleItemsFromQuery. intros H.
  apply bind_Val in H as (weights & r1 & [Hw ->]%liftE_Val & H).
  destruct (NewAliasSampler weights) as [s|cause] eqn:Hs.
  - right.
    apply bind_Val in H as (zs & r1 & [Hzs ->]%liftE_Val & H).
    apply bind_Val in H as (drawn & r1 & Hdrawn & H).
    apply bind_Val in H as (out & r2 & [Hout ->]%liftE_Val & H).
    destruct (Nat.eqb_spec (length out) 0) as [Hlen|];
      [|by apply ret_Val in H as [? _]].
    apply make_Val in Hzs as [Hdraws ->].
    apply (keepSampled_Val b _ _ 0%nat) in Hout as (Hout & _).
    rewrite length_replicate in Hout. lia.
  - left. apply ret_Val in H as [[= _ ->] _]. by exists cause.
Qed.

(** On a constructed walker [Process] never reports that no items were
    sampled: the seed slice is made with [Draws >= 1] slots before any
    seed is looked at, so it is never empty. *)
Lemma Process_never_reports_no_seeds (b : Bird) (query : list QueryItem)
    (r r' : Rand) (items referrers : list Z) (e : error) :
  bird_ok b ->
  Process b query r = Val ((items, referrers, Some e), r') ->
  e <> Wrap (New "no items were sampled,check that the query refers to actual items.")
            "cannot sample items".
Proof.
  intros Hok H. unfold Process in H. destruct (length query =? 0)%nat.
  { by apply ret_Val in H as [[= _ _ ->] _]. }
  apply bind_Val in H as ([seeds [e'|]] & r1 & Hseeds & H).
  - apply ret_Val in H as [[= _ _ ->] _].
    apply sampleItemsFromQuery_error in Hseeds as [[cause ->]|Hdraws]; [done|].
    pose proof (ok_draws b Hok). lia.
  - apply walk_Val in H as (_ & _ & item & -> & _). done.
Qed.

(** C2.  One user holding items 0 and 1, three items, two draws, and a query
    made of item 2 alone, which nobody holds: every sampled seed is invalid,
    and [Process] returns no error; it walks from item 0. *)
Theorem Process_invalid_seeds_walk_from_item_0 :
  let b := lonely_bird (mkBirdCfg 1 2) zeroes in
  let query := [mkQueryItem 2 1%float] in
  NewBird zeroes (mkBirdCfg 1 2) [1%float; 1%float; 1%float] [[0; 1]]
    = Val (BirdAt b, None) /\
  row (ItemsToUsers b) 2 = [] /\
  output (sampleItemsFromQuery b query zeroes) = Val ([0; 0], None) /\
  output (Process b query zeroes) = Val ([0; 0], [0; 0], None).
Proof. repeat split; vm_compute; reflexivity. Qed.

(** * Further properties of the walker *)

(** ** What a hop returns *)

Lemma sampleItem_Val (b : Bird) (user : Z) (r r' : Rand) (item : Z) :
  sampleItem b user r = Val (item, r') -> item ∈ row (UsersToItems b) user.
Proof.
  unfold sampleItem. intros H.
  apply bind_Val in H as (s & r1 & [Hs ->]%liftE_Val & H).
  apply bind_Val in H as (c & r1 & [Hc ->]%liftE_Val & H).
  apply bind_Val in H as (drawn & r1 & Hdrawn & H).
  apply bind_Val in H as (j & r2 & [Hj ->]%liftE_Val & H).
  apply liftE_Val in H as [H _].
  rewrite (index_row _ _ _ Hc). apply index_Val in H as [_ H].
  by eapply list_elem_of_lookup_2.
Qed.

Lemma mapR_Forall2 {A B} (P : A -> B -> Prop) (f : A -> M B) (l : list A)
    (r r' : Rand) (out : list B) :
  (forall x r y r', f x r = Val (y, r') -> P x y) ->
  mapR f l r = Val (out, r') -> Forall2 P l out.
Proof.
  intros Hf. revert r r' out. induction l as [|x l IH]; intros r r' out H;
    simpl in H.
  - apply ret_Val in H as [-> _]. constructor.
  - apply bind_Val in H as (y & r1 & Hy & H).
    apply bind_Val in H as (ys & r2 & Hys & H).
    apply ret_Val in H as [-> _]. constructor; eauto.
Qed.

(** A successful hop: every referrer holds the item it was chosen for, and
    every new item is in the collection of its referrer. *)
Lemma step_edges (b : Bird) (items : list Z) (r r' : Rand)
    (newItems referrers : list Z) :
  step b items r = Val ((newItems, referrers, None), r') ->
  Forall2 (fun item user => user ∈ row (ItemsToUsers b) item) items referrers /\
  Forall2 (fun user item => item ∈ row (UsersToItems b) user) referrers newItems.
Proof.
  intros H. pose proof (step_Val _ _ _ _ _ _ _ H) as (_ & _ & Hrefs).
  split; [done|]. unfold step in H.
  apply bind_Val in H as ([refs [e|]] & r1 & _ & H);
    [by apply ret_Val in H as [? _]|].
  apply bind_Val in H as (out & r2 & Hout & H).
  apply ret_Val in H as [[= -> ->] _].
  eapply mapR_Forall2; [|exact Hout]. intros user r0 item r0'.
  apply sampleItem_Val.
Qed.

(** The rounds of the depth loop, one by one: each is a hop from
    [stepItems]. *)
Lemma walk_hops (b : Bird) (stepItems : list Z) (rounds : nat)
    (items referrers : list Z) (r r' : Rand) (items' referrers' : list Z) :
  walk b stepItems rounds items referrers r = Val ((items', referrers', None), r') ->
  exists hops : list (list Z * list Z),
    length hops = rounds /\
    items' = items ++ concat (map fst hops) /\
    referrers' = referrers ++ concat (map snd hops) /\
    Forall (fun hop =>
              Forall2 (fun item user => user ∈ row (ItemsToUsers b) item)
                      stepItems (snd hop) /\
              Forall2 (fun user item => item ∈ row (UsersToItems b) user)
                      (snd hop) (fst hop)) hops.
Proof.
  revert items referrers r r'. induction rounds as [|rounds IH];
    intros items referrers r r' H; simpl in H.
  - apply ret_Val in H as [[= -> ->] _]. exists [].
    simpl. rewrite !app_nil_r. repeat split; constructor.
  - apply bind_Val in H as ([[new refs] [e|]] & r1 & Hstep & H);
      [by apply ret_Val in H as [? _]|].
    apply step_edges in Hstep as [Hrefs Hnew].
    apply IH in H as (hops & Hlen & -> & -> & Hall).
    exists ((new, refs) :: hops). simpl. rewrite <- !app_assoc.
    repeat split; [by f_equal|]. by constructor.
Qed.

Lemma Process_None (b : Bird) (query : list QueryItem) (r r' : Rand)
    (items referrers : list Z) :
  Process b query r = Val ((items, referrers, None), r') ->
  exists seeds r1,
    sampleItemsFromQuery b query r = Val ((seeds, None), r1) /\
    walk b seeds (Z.to_nat (Depth (Cfg b))) [] [] r1
      = Val ((items, referrers, None), r').
Proof.
  unfold Process. intros H.
  destruct (length query =? 0)%nat; [by apply ret_Val in H as [? _]|].
  apply bind_Val in H as ([seeds [e|]] & r1 & Hseeds & H);
    [by apply ret_Val in H as [? _]|].
  by exists seeds, r1.
Qed.

(** X1.  Whatever the depth, a successful [Process] is a sequence of
    [Depth] hops that all start from the same seeds: its items and
    referrers are the hops' items and referrers one after the other, and in
    every hop the referrer at position [i] is a user of seed [i] and the item
    at position [i] is in that referrer's collection. *)
Theorem Process_hops_from_seeds (b : Bird) (query : list QueryItem) (r r' : Rand)
    (items referrers : list Z) :
  Process b query r = Val ((items, referrers, None), r') ->
  exists seeds r1 (hops : list (list Z * list Z)),
    sampleItemsFromQuery b query r = Val ((seeds, None), r1) /\
    length hops = Z.to_nat (Depth (Cfg b)) /\
    items = concat (map fst hops) /\
    referrers = concat (map snd hops) /\
    Forall (fun hop =>
              Forall2 (fun seed user => user ∈ row (ItemsToUsers b) seed)
                      seeds (snd hop) /\
              Forall2 (fun user item => item ∈ row (UsersToItems b) user)
                      (snd hop) (fst hop)) hops.
Proof.
  intros (seeds & r1 & Hseeds & Hwalk)%Process_None.
  apply walk_hops in Hwalk as (hops & Hlen & -> & -> & Hall).
  by exists seeds, r1, hops.
Qed.

Lemma Process_hops_from_seeds_witness :
  let b := chain_bird (mkBirdCfg 2 2) zeroes in
  let query := [mkQueryItem 0 1%float; mkQueryItem 2 1%float] in
  let r := tape [1; 0; 0; 0; 1; 1; 0; 1; 0; 1; 0; 1] in
  exists seeds r1 (hops : list (list Z * list Z)),
    sampleItemsFromQuery b query r = Val ((seeds, None), r1) /\
    length hops = 2%nat /\
    [1; 0; 1; 0] = concat (map fst hops) /\
    [1; 0; 1; 0] = concat (map snd hops) /\
    Forall (fun hop =>
              Forall2 (fun seed user => user ∈ row (ItemsToUsers b) seed)
                      seeds (snd hop) /\
              Forall2 (fun user item => item ∈ row (UsersToItems b) user)
                      (snd hop) (fst hop)) hops.
Proof.
  apply (Process_hops_from_seeds (chain_bird (mkBirdCfg 2 2) zeroes)
           [mkQueryItem 0 1%float; mkQueryItem 2 1%float]
           (tape [1; 0; 0; 0; 1; 1; 0; 1; 0; 1; 0; 1])
           (mkRand (raw (tape [1; 0; 0; 0; 1; 1; 0; 1; 0; 1; 0; 1])) 16)).
  vm_compute; reflexivity.
Defined.

(** ** Items and referrers of the output *)

Lemma row_elem (table : list (list Z)) (z x : Z) :
  x ∈ row table z ->
  0 <= z < Z.of_nat (length table) /\
  exists l, table !! Z.to_nat z = Some l /\ x ∈ l.
Proof.
  unfold row. destruct (Z.ltb_spec z 0); [by intros ?%elem_of_nil|].
  destruct (table !! Z.to_nat z) as [l|] eqn:Hl; [|by intros ?%elem_of_nil].
  simpl. intros Hx. apply lookup_lt_Some in Hl as Hlt.
  split; [lia | by exists l].
Qed.

Lemma Forall2_concat_hops {A B} (P : A -> B -> Prop) (hops : list (list B * list A)) :
  Forall (fun hop => Forall2 P (snd hop) (fst hop)) hops ->
  Forall2 P (concat (map snd hops)) (concat (map fst hops)).
Proof.
  induction 1 as [|hop hops Hhop _ IH]; simpl; [constructor|].
  by apply Forall2_app.
Qed.

Lemma Process_edges (b : Bird) (query : list QueryItem) (r r' : Rand)
    (items referrers : list Z) :
  Process b query r = Val ((items, referrers, None), r') ->
  Forall2 (fun user item => item ∈ row (UsersToItems b) user) referrers items.
Proof.
  intros (seeds & r1 & _ & Hwalk)%Process_None.
  apply walk_hops in Hwalk as (hops & _ & -> & -> & Hall). simpl.
  apply Forall2_concat_hops. eapply Forall_impl; [exact Hall|].
  by intros hop [_ ?].
Qed.

(** X2.  On a walker that [NewBird] built, every item [Process] returns comes
    with a referrer that holds it: position by position, the referrer is a
    user of the graph, the item is an item of the graph, and the item occurs
    in the referrer's collection. *)
Theorem Process_outputs_are_edges (randSource : Rand) (cfg : BirdCfg)
    (itemWeights : list float) (usersToItems : list (list Z)) (b : Bird)
    (query : list QueryItem) (r r' : Rand) (items referrers : list Z) :
  NewBird randSource cfg itemWeights usersToItems = Val (BirdAt b, None) ->
  Process b query r = Val ((items, referrers, None), r') ->
  Forall2 (fun item user =>
             0 <= item < Z.of_nat (length itemWeights) /\
             0 <= user < Z.of_nat (length usersToItems) /\
             item ∈ row usersToItems user) items referrers.
Proof.
  intros Hnew Hrun. pose proof (NewBird_ok _ _ _ _ _ _ Hnew) as Hok.
  apply NewBird_BirdAt in Hnew as (_ & _ & <- & <- & _).
  apply Process_edges in Hrun. apply Forall2_flip.
  eapply Forall2_impl; [exact Hrun|]. intros user item Hin. unfold flip.
  destruct (row_elem _ _ _ Hin) as (Huser & c & Hc & Hitem).
  pose proof (ok_range b Hok) as Hrange. unfold items_in_range in Hrange.
  rewrite Forall_lookup in Hrange. specialize (Hrange _ _ Hc).
  rewrite Forall_forall in Hrange. specialize (Hrange _ Hitem).
  repeat split; try done; lia.
Qed.

Lemma Process_outputs_are_edges_witness :
  Forall2 (fun item user =>
             0 <= item < 3 /\ 0 <= user < 2 /\ item ∈ row chain_graph user)
          [1; 0; 1; 0] [1; 0; 1; 0].
Proof.
  apply (Process_outputs_are_edges zeroes (mkBirdCfg 2 2)
           [1%float; 1%float; 1%float] chain_graph
           (chain_bird (mkBirdCfg 2 2) zeroes)
           [mkQueryItem 0 1%float; mkQueryItem 2 1%float]
           (tape [1; 0; 0; 0; 1; 1; 0; 1; 0; 1; 0; 1])
           (mkRand (raw (tape [1; 0; 0; 0; 1; 1; 0; 1; 0; 1; 0; 1])) 16)).
  - vm_compute; reflexivity.
  - vm_compute; reflexivity.
Defined.

(** ** The errors of [Process] *)

Lemma sampleItemsFromQuery_error_cause (b : Bird) (query : list QueryItem)
    (r r' : Rand) (seeds : list Z) (e : error) :
  sampleItemsFromQuery b query r = Val ((seeds, Some e), r') ->
  seeds = [] /\
  ((exists weights cause,
      queryWeights b query = Val weights /\
      NewAliasSampler weights = inr cause /\
      e = Wrap (OfSampler cause) "cannot create sampler") \/
   (Draws (Cfg b) = 0 /\
    e = New "no items were sampled,check that the query refers to actual items.")).
Proof.
  unfold sampleItemsFromQuery. intros H.
  apply bind_Val in H as (weights & r1 & [Hw ->]%liftE_Val & H).
  destruct (NewAliasSampler weights) as [s|cause] eqn:Hs.
  - apply bind_Val in H as (zs & r1 & [Hzs ->]%liftE_Val & H).
    apply bind_Val in H as (drawn & r1 & Hdrawn & H).
    apply bind_Val in H as (out & r2 & [Hout ->]%liftE_Val & H).
    destruct (Nat.eqb_spec (length out) 0) as [Hlen|];
      [|by apply ret_Val in H as [? _]].
    apply ret_Val in H as [[= -> ->] _]. split; [done|]. right. split; [|done].
    apply make_Val in Hzs as [Hdraws ->].
    apply (keepSampled_Val b _ _ 0%nat) in Hout as (Hout & _).
    rewrite length_replicate in Hout. lia.
  - apply ret_Val in H as [[= -> ->] _]. split; [done|]. left.
    by exists weights, cause.
Qed.

(** A seed nobody interacted with is the default 0 of a slot whose query
    item nobody interacted with. *)
Lemma orphan_seed_is_default (b : Bird) (query : list QueryItem) (r r' : Rand)
    (seeds : list Z) (item : Z) :
  sampleItemsFromQuery b query r = Val ((seeds, None), r') ->
  item ∈ seeds -> row (ItemsToUsers b) item = [] ->
  item = 0 /\ exists q, q ∈ query /\ row (ItemsToUsers b) (Item q) = [].
Proof.
  intros (ws & s & drawn & _ & _ & _ & _ & Hlen & Hslots)%sampleItemsFromQuery_Val
         Hin Hrow.
  apply list_elem_of_lookup in Hin as [i Hi].
  destruct (lookup_lt_is_Some_2 drawn i) as [iid Hiid].
  { rewrite Hlen. by eapply lookup_lt_Some. }
  destruct (Hslots i iid Hiid) as (q & _ & Hq & _ & Hslot).
  rewrite Hi in Hslot. unfold slot in Hslot.
  destruct (Nat.eqb_spec (length (row (ItemsToUsers b) (Item q))) 0) as [Hempty|Hfull].
  - simplify_eq. split; [done|]. exists q. split.
    + by eapply list_elem_of_lookup_2.
    + by destruct (row (ItemsToUsers b) (Item q)).
  - simplify_eq. by rewrite Hrow in Hfull.
Qed.

Lemma Process_error_cases (b : Bird) (query : list QueryItem) (r r' : Rand)
    (items referrers : list Z) (e : error) :
  1 <= Draws (Cfg b) ->
  Process b query r = Val ((items, referrers, Some e), r') ->
  (query = [] /\ e = New "empty query") \/
  (query <> [] /\
   exists weights cause,
     queryWeights b query = Val weights /\
     NewAliasSampler weights = inr cause /\
     e = Wrap (Wrap (OfSampler cause) "cannot create sampler")
              "cannot sample items") \/
  (query <> [] /\ row (ItemsToUsers b) 0 = [] /\
   e = Wrap (NoOneInteracted 0) "cannot step through items" /\
   exists q, q ∈ query /\ row (ItemsToUsers b) (Item q) = []).
Proof.
  intros Hdraws H. unfold Process in H.
  destruct query as [|q0 query]; [left; by apply ret_Val in H as [[= _ _ ->] _]|].
  right. change (length (q0 :: query) =? 0)%nat with false in H. cbv iota in H.
  apply bind_Val in H as ([seeds [e'|]] & r1 & Hseeds & H).
  - apply ret_Val in H as [[= _ _ ->] _]. left. split; [done|].
    apply sampleItemsFromQuery_error_cause in Hseeds
      as (_ & [(ws & cause & Hws & Hs & ->)|[Hzero _]]); [|lia].
    by exists ws, cause.
  - right. split; [done|].
    apply walk_Val in H as (_ & _ & item & -> & Hin & _ & Hrow).
    destruct (orphan_seed_is_default _ _ _ _ _ _ Hseeds Hin Hrow) as (-> & Hq).
    by repeat split.
Qed.

(** X3.  On a walker that [NewBird] built, an error of [Process] is one of
    three: "empty query" for the empty query; the failure to build the
    sampler of the query, wrapped twice; or, wrapped, "no one has interacted
    with item 0", which needs both item 0 and some item of the query to have
    no user.  No other item is ever reported, and "no items were sampled" is
    never returned. *)
Theorem Process_error_kinds (randSource : Rand) (cfg : BirdCfg)
    (itemWeights : list float) (usersToItems : list (list Z)) (b : Bird)
    (query : list QueryItem) (r r' : Rand) (items referrers : list Z)
    (e : error) :
  NewBird randSource cfg itemWeights usersToItems = Val (BirdAt b, None) ->
  Process b query r = Val ((items, referrers, Some e), r') ->
  (query = [] /\ e = New "empty query") \/
  (query <> [] /\
   exists weights cause,
     queryWeights b query = Val weights /\
     NewAliasSampler weights = inr cause /\
     e = Wrap (Wrap (OfSampler cause) "cannot create sampler")
              "cannot sample items") \/
  (query <> [] /\ row (ItemsToUsers b) 0 = [] /\
   e = Wrap (NoOneInteracted 0) "cannot step through items" /\
   exists q, q ∈ query /\ row (ItemsToUsers b) (Item q) = []).
Proof.
  intros Hnew. pose proof (NewBird_ok _ _ _ _ _ _ Hnew) as Hok.
  apply Process_error_cases. apply (ok_draws b Hok).
Qed.

Lemma Process_error_kinds_witness :
  let b := orphan_bird (mkBirdCfg 1 2) zeroes in
  let query := [mkQueryItem 1 1%float; mkQueryItem 0 1%float] in
  let e := Wrap (NoOneInteracted 0) "cannot step through items" in
  (query = [] /\ e = New "empty query") \/
  (query <> [] /\
   exists weights cause,
     queryWeights b query = Val weights /\
     NewAliasSampler weights = inr cause /\
     e = Wrap (Wrap (OfSampler cause) "cannot create sampler")
              "cannot sample items") \/
  (query <> [] /\ row (ItemsToUsers b) 0 = [] /\
   e = Wrap (NoOneInteracted 0) "cannot step through items" /\
   exists q, q ∈ query /\ row (ItemsToUsers b) (Item q) = []).
Proof.
  apply (Process_error_kinds zeroes (mkBirdCfg 1 2) [1%float; 1%float] [[1]]
           (orphan_bird (mkBirdCfg 1 2) zeroes)
           [mkQueryItem 1 1%float; mkQueryItem 0 1%float]
           (tape [0; 0; 1; 0])
           (mkRand (raw (tape [0; 0; 1; 0])) 5) [] []).
  - vm_compute; reflexivity.
  - vm_compute; reflexivity.
Defined.

(** X4.  On a walker that [NewBird] built, when the sampler of the query
    can be built and either item 0 or every item of the query has a user,
    [Process] has no error to return and no index to miss: whatever it
    returns comes with a nil error, and it raises no index-out-of-range
    panic, whatever the random source gives. *)
Theorem Process_returns_no_error (randSource : Rand) (cfg : BirdCfg)
    (itemWeights : list float) (usersToItems : list (list Z)) (b : Bird)
    (query : list QueryItem) (weights : list float) (s : AliasSampler)
    (r : Rand) :
  NewBird randSource cfg itemWeights usersToItems = Val (BirdAt b, None) ->
  queryWeights b query = Val weights ->
  NewAliasSampler weights = inl s ->
  row (ItemsToUsers b) 0 <> [] \/
  Forall (fun q => row (ItemsToUsers b) (Item q) <> []) query ->
  (forall items referrers err r',
     Process b query r = Val ((items, referrers, err), r') -> err = None) /\
  (forall i len, Process b query r <> Panic (IndexOutOfRange i len)).
Proof.
  intros Hnew Hws Hs Husers. pose proof (NewBird_ok _ _ _ _ _ _ Hnew) as Hok.
  pose proof (queryWeights_Val _ _ _ Hws) as [Hlen Hrange]. split.
  - intros items referrers [e|] r' Hrun; [exfalso|done].
    apply (Process_error_cases _ _ _ _ _ _ _ (ok_draws b Hok)) in Hrun
      as [[-> _]|[(_ & ws' & cause & Hws' & Hs' & _)|(_ & Hzero & _ & q & Hq & Hrow)]].
    + apply NewAliasSampler_ok in Hs as [Hone _]. simpl in Hlen. lia.
    + congruence.
    + destruct Husers as [Hzero'|Hall]; [done|].
      rewrite Forall_forall in Hall. by apply (Hall q).
  - intros i len. by apply Process_no_index_panic.
Qed.

Lemma Process_returns_no_error_witness :
  let b := chain_bird (mkBirdCfg 2 3) zeroes in
  let query := [mkQueryItem 2 3%float; mkQueryItem 1 1%float] in
  (forall items referrers err r',
     Process b query ones = Val ((items, referrers, err), r') -> err = None) /\
  (forall i len, Process b query ones <> Panic (IndexOutOfRange i len)).
Proof.
  apply (Process_returns_no_error zeroes (mkBirdCfg 2 3)
           [1%float; 1%float; 1%float] chain_graph
           (chain_bird (mkBirdCfg 2 3) zeroes)
           [mkQueryItem 2 3%float; mkQueryItem 1 1%float]
           [3%float; 1%float]
           (mkAliasSampler [1%float; 0.5%float] [0; 0])).
  - vm_compute; reflexivity.
  - vm_compute; reflexivity.
  - vm_compute; reflexivity.
  - left. by vm_compute.
Defined.

Example Process_returns_no_error_run :
  output (Process (chain_bird (mkBirdCfg 2 3) zeroes)
                  [mkQueryItem 2 3%float; mkQueryItem 1 1%float] ones)
  = Val ([2; 2; 2; 2; 2; 2], [1; 1; 1; 1; 1; 1], None).
Proof. vm_compute; reflexivity. Qed.

(** ** Where a hop stops *)

Lemma chooseReferrers_first_orphan (b : Bird) (items : list Z) (r r' : Rand)
    (referrers : list Z) (e : error) :
  chooseReferrers b items r = Val ((referrers, Some e), r') ->
  exists before item after,
    items = before ++ item :: after /\
    Forall (fun i => row (ItemsToUsers b) i <> []) before /\
    row (ItemsToUsers b) item = [] /\
    e = NoOneInteracted item.
Proof.
  revert r r' referrers. induction items as [|item rest IH];
    intros r r' referrers H; simpl in H.
  - by apply ret_Val in H as [? _].
  - apply bind_Val in H as (users & r1 & [Husers ->]%liftE_Val & H).
    pose proof (index_row _ _ _ Husers) as Hrow.
    destruct (Nat.eqb_spec (length users) 0) as [Hempty|Hfull].
    + apply ret_Val in H as [[= _ ->] _]. exists [], item, rest.
      repeat split; [constructor|]. rewrite Hrow. by destruct users.
    + apply bind_Val in H as (k & r1 & Hk & H).
      apply bind_Val in H as (user & r2 & [Huser ->]%liftE_Val & H).
      apply bind_Val in H as ([refs [e'|]] & r3 & Hrest & H);
        [|by apply ret_Val in H as [? _]].
      apply ret_Val in H as [[= _ ->] _].
      apply IH in Hrest as (before & item' & after & -> & Hall & Hrow' & ->).
      exists (item :: before), item', after. repeat split; try done.
      constructor; [|done]. rewrite Hrow. by destruct users.
Qed.

(** X5.  A hop either serves every incoming item or none: [step] returns
    one new item and one referrer per incoming item exactly when every
    incoming item has a user; otherwise it returns nothing but the error of
    the first incoming item that has no user. *)
Theorem step_stops_at_first_orphan (b : Bird) (items : list Z) (r r' : Rand)
    (newItems referrers : list Z) (err : option error) :
  step b items r = Val ((newItems, referrers, err), r') ->
  match err with
  | None =>
      Forall (fun i => row (ItemsToUsers b) i <> []) items /\
      length newItems = length items /\ length referrers = length items
  | Some e =>
      newItems = [] /\ referrers = [] /\
      exists before item after,
        items = before ++ item :: after /\
        Forall (fun i => row (ItemsToUsers b) i <> []) before /\
        row (ItemsToUsers b) item = [] /\
        e = NoOneInteracted item
  end.
Proof.
  intros H. pose proof (step_Val _ _ _ _ _ _ _ H) as Hshape.
  destruct err as [e|].
  - destruct Hshape as (-> & -> & _). repeat split.
    unfold step in H.
    apply bind_Val in H as ([refs [e'|]] & r1 & Hrefs & H).
    + apply ret_Val in H as [Heq _]. simplify_eq.
      by apply chooseReferrers_first_orphan in Hrefs.
    + apply bind_Val in H as (out & r2 & _ & H). by apply ret_Val in H as [? _].
  - destruct Hshape as (Hnew & Hrefs & Hall). repeat split; try done.
    apply Forall_forall. intros item Hin.
    apply list_elem_of_lookup in Hin as [i Hi].
    destruct (Forall2_lookup_l _ _ _ _ _ Hall Hi) as (user & _ & Huser).
    intros Hrow. rewrite Hrow in Huser. by apply elem_of_nil in Huser.
Qed.

Lemma step_stops_at_first_orphan_witness :
  let b := lonely_bird (mkBirdCfg 1 1) zeroes in
  @nil Z = [] /\ @nil Z = [] /\
  exists before item after,
    [1; 0; 2; 1; 2] = before ++ item :: after /\
    Forall (fun i => row (ItemsToUsers b) i <> []) before /\
    row (ItemsToUsers b) item = [] /\
    NoOneInteracted 2 = NoOneInteracted item.
Proof.
  apply (step_stops_at_first_orphan (lonely_bird (mkBirdCfg 1 1) zeroes)
           [1; 0; 2; 1; 2] zeroes (mkRand (raw zeroes) 2) [] []
           (Some (NoOneInteracted 2))).
  vm_compute; reflexivity.
Defined.

(** ** The error that needs no draws *)

(** X6.  When the sampler of the query can be built, [sampleItemsFromQuery]
    returns the error "no items were sampled" exactly when [Cfg.Draws] is 0:
    the seed slice is made with [Draws] slots and is never shortened, so the
    items of the query have no part in it. *)
Theorem no_items_sampled_iff_no_draws (b : Bird) (query : list QueryItem)
    (weights : list float) (s : AliasSampler) (r : Rand) :
  queryWeights b query = Val weights ->
  NewAliasSampler weights = inl s ->
  (exists seeds r',
     sampleItemsFromQuery b query r =
     Val ((seeds, Some (New
       "no items were sampled,check that the query refers to actual items.")), r'))
  <-> Draws (Cfg b) = 0.
Proof.
  intros Hws Hs. split.
  - intros (seeds & r' & H).
    apply sampleItemsFromQuery_error_cause in H
      as (_ & [(ws' & cause & _ & _ & ?)|[? _]]); done.
  - intros Hzero. exists [], r. unfold sampleItemsFromQuery, bind, liftE.
    rewrite Hws, Hs, Hzero. reflexivity.
Qed.

Lemma no_items_sampled_iff_no_draws_witness :
  (exists seeds r',
     sampleItemsFromQuery (chain_bird (mkBirdCfg 1 0) zeroes)
       [mkQueryItem 1 1%float] ones =
     Val ((seeds, Some (New
       "no items were sampled,check that the query refers to actual items.")), r'))
  <-> Draws (Cfg (chain_bird (mkBirdCfg 1 0) zeroes)) = 0.
Proof.
  apply (no_items_sampled_iff_no_draws (chain_bird (mkBirdCfg 1 0) zeroes)
           [mkQueryItem 1 1%float] [1%float] (mkAliasSampler [1%float] [0])).
  - vm_compute; reflexivity.
  - vm_compute; reflexivity.
Defined.

(** ** The order of the reverse rows *)

Lemma sorted_replicate (k : nat) (x : Z) : StronglySorted Z.le (replicate k x).
Proof.
  induction k as [|k IH]; simpl; constructor; [done|].
  apply Forall_replicate. lia.
Qed.

Lemma sorted_app_replicate (l : list Z) (k : nat) (x : Z) :
  StronglySorted Z.le l -> Forall (fun u => u <= x) l ->
  StronglySorted Z.le (l ++ replicate k x).
Proof.
  induction 1 as [|a l Hl IH Ha]; intros Hall; simpl;
    [apply sorted_replicate|].
  apply Forall_cons in Hall as [Hax Hall]. constructor; [by apply IH|].
  apply Forall_app. split; [done|]. by apply Forall_replicate.
Qed.

(** One user's collection only appends that user to rows. *)
Lemma foldE_append_user_rows (uid : Z) (userItems : list Z)
    (itemsToUsers out : list (list Z)) (i : Z) :
  foldE (append_user uid) userItems itemsToUsers = Val out ->
  exists k, row out i = row itemsToUsers i ++ replicate k uid.
Proof.
  revert itemsToUsers. induction userItems as [|iid rest IH];
    intros itemsToUsers H; simpl in H.
  - simplify_eq. exists 0%nat. simpl. by rewrite app_nil_r.
  - apply bindE_Val in H as (mid & Hmid & H).
    apply append_user_Val in Hmid as [Hiid ->].
    apply IH in H as [k Hk]. rewrite Hk, row_insert by done.
    destruct (decide (i = iid)) as [->|Hne]; [|by exists k].
    exists (S k). by rewrite <- app_assoc.
Qed.

Lemma permute_users_sorted (lo uid : Z) (usersToItems : list (list Z))
    (itemsToUsers out : list (list Z)) :
  lo <= uid ->
  permute_users uid usersToItems itemsToUsers = Val out ->
  (forall i, StronglySorted Z.le (row itemsToUsers i) /\
             Forall (fun u => lo <= u < uid) (row itemsToUsers i)) ->
  forall i, StronglySorted Z.le (row out i) /\
            Forall (fun u => lo <= u < uid + Z.of_nat (length usersToItems))
                   (row out i).
Proof.
  revert uid itemsToUsers. induction usersToItems as [|c rest IH];
    intros uid itemsToUsers Hlo H Hinv i; simpl in H.
  - simplify_eq. destruct (Hinv i) as [Hs Hall]. split; [done|].
    eapply Forall_impl; [exact Hall|]. simpl. intros; lia.
  - apply bindE_Val in H as (mid & Hmid & H).
    assert (forall j, StronglySorted Z.le (row mid j) /\
                      Forall (fun u => lo <= u < uid + 1) (row mid j)) as Hmidinv.
    { intros j. destruct (foldE_append_user_rows uid c _ _ j Hmid) as [k ->].
      destruct (Hinv j) as [Hs Hall]. split.
      - apply sorted_app_replicate; [done|].
        eapply Forall_impl; [exact Hall|]. simpl. intros; lia.
      - apply Forall_app. split.
        + eapply Forall_impl; [exact Hall|]. simpl. intros; lia.
        + apply Forall_replicate. lia. }
    destruct (IH (uid + 1) mid ltac:(lia) H Hmidinv i) as [Hs Hall].
    split; [done|]. eapply Forall_impl; [exact Hall|].
    intros u Hu. simpl in *. lia.
Qed.

(** X7.  Every row of the reverse adjacency that [permuteAdjacencyList]
    returns lists its users in increasing order (a user repeated as often as
    the item is repeated in the user's collection), and every user it lists
    is a user of the forward adjacency. *)
Theorem permuteAdjacencyList_rows_sorted (numItems : Z)
    (usersToItems out : list (list Z)) (i : Z) :
  permuteAdjacencyList numItems usersToItems = Val out ->
  StronglySorted Z.le (row out i) /\
  Forall (fun u => 0 <= u < Z.of_nat (length usersToItems)) (row out i).
Proof.
  unfold permuteAdjacencyList. intros (zs & Hzs & H)%bindE_Val.
  apply make_Val in Hzs as [_ ->].
  apply (permute_users_sorted 0 0 _ _ _ (Z.le_refl 0) H).
  intros j. rewrite row_replicate_nil. split; constructor.
Qed.

Lemma permuteAdjacencyList_rows_sorted_witness :
  StronglySorted Z.le (row [[1]; [0; 0; 1; 2]; [0; 2]] 1) /\
  Forall (fun u => 0 <= u < 3) (row [[1]; [0; 0; 1; 2]; [0; 2]] 1).
Proof.
  apply (permuteAdjacencyList_rows_sorted 3 [[1; 2; 1]; [1; 0]; [2; 1]]
           [[1]; [0; 0; 1; 2]; [0; 2]] 1).
  vm_compute; reflexivity.
Defined.

Lemma append_user_Panic (uid iid : Z) (itemsToUsers : list (list Z)) (p : panic) :
  append_user uid itemsToUsers iid = Panic p ->
  p = IndexOutOfRange iid (length itemsToUsers) /\
  (iid < 0 \/ Z.of_nat (length itemsToUsers) <= iid).
Proof.
  unfold append_user.
  destruct (index itemsToUsers iid) as [users|p'] eqn:Hindex; simpl.
  - apply index_Val_range in Hindex. intros Hstore. exfalso.
    assert (store itemsToUsers iid (users ++ [uid])
            = Val (<[Z.to_nat iid := users ++ [uid]]> itemsToUsers)) as Hok
      by (by apply store_Val).
    congruence.
  - intros [= <-]. apply index_Panic_range in Hindex as [? ->]. done.
Qed.

Lemma foldE_append_user_Panic (uid : Z) (userItems : list Z)
    (itemsToUsers : list (list Z)) (p : panic) :
  foldE (append_user uid) userItems itemsToUsers = Panic p ->
  exists iid,
    iid ∈ userItems /\ p = IndexOutOfRange iid (length itemsToUsers) /\
    (iid < 0 \/ Z.of_nat (length itemsToUsers) <= iid).
Proof.
  revert itemsToUsers. induction userItems as [|iid rest IH];
    intros itemsToUsers H; simpl in H; [done|].
  destruct (append_user uid itemsToUsers iid) as [mid|p'] eqn:Hmid; simpl in H.
  - apply append_user_Val in Hmid as [_ ->].
    apply IH in H as (iid' & Hin & -> & Hout). rewrite length_insert in *.
    exists iid'. split; [by right | done].
  - simplify_eq. apply append_user_Panic in Hmid as [-> Hout].
    exists iid. split; [by left | done].
Qed.

Lemma permute_users_Panic (uid : Z) (usersToItems : list (list Z))
    (itemsToUsers : list (list Z)) (p : panic) :
  permute_users uid usersToItems itemsToUsers = Panic p ->
  exists userItems iid,
    userItems ∈ usersToItems /\ iid ∈ userItems /\
    p = IndexOutOfRange iid (length itemsToUsers) /\
    (iid < 0 \/ Z.of_nat (length itemsToUsers) <= iid).
Proof.
  revert uid itemsToUsers. induction usersToItems as [|c rest IH];
    intros uid itemsToUsers H; simpl in H; [done|].
  destruct (foldE (append_user uid) c itemsToUsers) as [mid|p'] eqn:Hmid;
    simpl in H.
  - apply foldE_append_user in Hmid as (Hlen & _).
    apply IH in H as (c' & iid & Hc' & Hin & -> & Hout). rewrite Hlen in *.
    exists c', iid. split; [by right | done].
  - simplify_eq. apply foldE_append_user_Panic in Hmid as (iid & Hin & -> & Hout).
    exists c, iid. split; [by left | done].
Qed.

(** X8.  The bounds of [permuteAdjacencyList].  A negative [numItems] panics
    in [make].  A table comes back only when [numItems] is not negative and
    every item index of the forward adjacency lies in [0, numItems).  An
    index-out-of-range panic always names an item index of the forward
    adjacency outside [0, numItems), against the length [numItems]: a table
    whose indices are in range raises none. *)
Theorem permuteAdjacencyList_bounds (numItems : Z)
    (usersToItems : list (list Z)) :
  (numItems < 0 ->
   permuteAdjacencyList numItems usersToItems
   = Panic (MakeSliceLenOutOfRange numItems)) /\
  (forall out,
     permuteAdjacencyList numItems usersToItems = Val out ->
     0 <= numItems /\ items_in_range numItems usersToItems) /\
  (forall i len,
     permuteAdjacencyList numItems usersToItems = Panic (IndexOutOfRange i len) ->
     0 <= numItems /\ Z.of_nat len = numItems /\
     (i < 0 \/ numItems <= i) /\
     exists userItems, userItems ∈ usersToItems /\ i ∈ userItems).
Proof.
  split; [|split].
  - intros Hneg. unfold permuteAdjacencyList, make.
    by destruct (Z.ltb_spec numItems 0); [|lia].
  - intros out (? & ? & _)%permuteAdjacencyList_Val. done.
  - intros i len H. unfold permuteAdjacencyList in H.
    destruct (make [] numItems) as [zs|p] eqn:Hmake; simpl in H.
    + apply make_Val in Hmake as [Hnonneg ->].
      apply permute_users_Panic in H as (c & iid & Hc & Hin & [= -> ->] & Hout).
      rewrite length_replicate in *. rewrite Z2Nat.id in * by done.
      repeat split; try done. by exists c.
    + apply make_Panic in Hmake. congruence.
Qed.

Example permuteAdjacencyList_panics_on_item_3 :
  permuteAdjacencyList 3 [[0; 1]; [3]] = Panic (IndexOutOfRange 3 3).
Proof. reflexivity. Qed.

Example permuteAdjacencyList_panics_on_negative_item :
  permuteAdjacencyList 3 [[0; -2]] = Panic (IndexOutOfRange (-2) 3).
Proof. reflexivity. Qed.

(** ** What construction returns *)

Lemma initUserItemsSamplers_Some (itemWeights : list float)
    (usersToItems : list (list Z)) (samplers : list AliasSampler) (e : error) :
  initUserItemsSamplers itemWeights usersToItems = Val (samplers, Some e) ->
  samplers = [] /\
  exists u cause,
    sampler_fails_at itemWeights usersToItems u cause /\
    e = Wrap (OfSampler cause)
             "could not initialize the probability and alias tables".
Proof.
  revert samplers. induction usersToItems as [|c rest IH]; intros samplers H;
    simpl in H; [done|].
  apply bindE_Val in H as (ws & Hws & H).
  destruct (NewAliasSampler ws) as [s|cause] eqn:Hs.
  - apply bindE_Val in H as ([ss [e'|]] & Hss & H); [|done]. simplify_eq.
    apply IH in Hss as (_ & u & cause & [Hbefore Hat] & ->). split; [done|].
    exists (S u), cause. split; [|done]. split; [|exact Hat].
    intros [|u'] c' Hu' Hc'; simpl in Hc'.
    + simplify_eq. eauto.
    + apply (Hbefore u' c'); [lia | done].
  - simplify_eq. split; [done|]. exists 0%nat, cause. split; [|done].
    split; [intros; lia|]. by exists c, ws.
Qed.

(** X9.  [initUserItemsSamplers] returns either one sampler per user and no
    error, and then every item index of the adjacency is a valid index of
    [itemWeights]; or no sampler at all and the wrapped failure of the first
    user whose sampler cannot be built. *)
Theorem initUserItemsSamplers_all_or_nothing (itemWeights : list float)
    (usersToItems : list (list Z)) (samplers : list AliasSampler)
    (err : option error) :
  initUserItemsSamplers itemWeights usersToItems = Val (samplers, err) ->
  match err with
  | None =>
      length samplers = length usersToItems /\
      items_in_range (Z.of_nat (length itemWeights)) usersToItems
  | Some e =>
      samplers = [] /\
      exists u cause,
        sampler_fails_at itemWeights usersToItems u cause /\
        e = Wrap (OfSampler cause)
                 "could not initialize the probability and alias tables"
  end.
Proof.
  destruct err as [e|]; intros H.
  - by apply initUserItemsSamplers_Some.
  - apply initUserItemsSamplers_None in H as [Hss Hrange].
    split; [by eapply Forall2_length | done].
Qed.

Lemma initUserItemsSamplers_all_or_nothing_witness :
  @nil AliasSampler = [] /\
  exists u cause,
    sampler_fails_at [1%float; 0%float] [[0; 1]; [1; 1]; [0]] u cause /\
    Wrap (OfSampler InvalidWeight)
         "could not initialize the probability and alias tables" =
    Wrap (OfSampler cause)
         "could not initialize the probability and alias tables".
Proof.
  apply (initUserItemsSamplers_all_or_nothing [1%float; 0%float]
           [[0; 1]; [1; 1]; [0]] []
           (Some (Wrap (OfSampler InvalidWeight)
                    "could not initialize the probability and alias tables"))).
  vm_compute; reflexivity.
Defined.

(** X10.  What [NewBird] returns tells how it ended: the nil pointer only
    with an error of the configuration checks; the empty [&Bird{}], not nil,
    with every other error; and a walker only with a nil error, in which
    case the walker holds the inputs unchanged, one reverse row per item and
    one sampler per user. *)
Theorem NewBird_result_shape (randSource : Rand) (cfg : BirdCfg)
    (itemWeights : list float) (usersToItems : list (list Z))
    (ptr : BirdPtr) (err : option error) :
  NewBird randSource cfg itemWeights usersToItems = Val (ptr, err) ->
  match ptr with
  | NilBird => (Depth cfg < 1 \/ Draws cfg < 1) /\ exists e, err = Some e
  | ZeroBird => 1 <= Depth cfg /\ 1 <= Draws cfg /\ exists e, err = Some e
  | BirdAt b =>
      err = None /\ 1 <= Depth cfg /\ 1 <= Draws cfg /\
      Cfg b = cfg /\ ItemWeights b = itemWeights /\
      UsersToItems b = usersToItems /\ RandSource b = randSource /\
      length (ItemsToUsers b) = length itemWeights /\
      length (UserItemsSamplers b) = length usersToItems
  end.
Proof.
  intros H. destruct ptr as [| |b].
  - unfold NewBird in H.
    destruct (Z.ltb_spec (Depth cfg) 1); [simplify_eq; eauto|].
    destruct (Z.ltb_spec (Draws cfg) 1); [simplify_eq; eauto|].
    destruct (validateBirdInputs itemWeights usersToItems); [done|].
    apply bindE_Val in H as ([ss [e|]] & _ & H); [done|].
    by apply bindE_Val in H as (? & _ & ?).
  - unfold NewBird in H.
    destruct (Z.ltb_spec (Depth cfg) 1); [done|].
    destruct (Z.ltb_spec (Draws cfg) 1); [done|].
    destruct (validateBirdInputs itemWeights usersToItems);
      [simplify_eq; eauto|].
    apply bindE_Val in H as ([ss [e|]] & _ & H); [simplify_eq; eauto|].
    by apply bindE_Val in H as (? & _ & ?).
  - pose proof (NewBird_ok _ _ _ _ _ _ H) as Hok.
    apply NewBird_BirdAt in H as (-> & <- & <- & <- & <- & _ & _ & _).
    pose proof (Forall2_length _ _ _ (ok_samplers b Hok)).
    pose proof (ok_reverse_len b Hok).
    pose proof (ok_depth b Hok). pose proof (ok_draws b Hok). done.
Qed.

Lemma NewBird_result_shape_witness :
  1 <= 3 /\ 1 <= 2 /\
  exists e,
    Some (Wrap (New "UsersToItems references more items itemWeights")
               "invalid input") = Some e.
Proof.
  apply (NewBird_result_shape zeroes (mkBirdCfg 3 2) [1%float] [[0]; [1]]
           ZeroBird).
  vm_compute; reflexivity.
Defined.

(** X11.  The default configuration of [NewBirdCfg] passes the configuration
    checks of [NewBird], which therefore never returns the nil pointer for
    it; and on a walker built with it every successful [Process] returns
    1000 items and 1000 referrers: one hop for each of a thousand draws. *)
Theorem NewBirdCfg_accepted (randSource : Rand) (itemWeights : list float)
    (usersToItems : list (list Z)) (ptr : BirdPtr) (err : option error) :
  NewBird randSource NewBirdCfg itemWeights usersToItems = Val (ptr, err) ->
  ptr <> NilBird /\
  forall b query r r' items referrers,
    ptr = BirdAt b ->
    Process b query r = Val ((items, referrers, None), r') ->
    length items = 1000%nat /\ length referrers = 1000%nat.
Proof.
  intros H. split.
  - intros ->. unfold NewBird in H. simpl in H.
    destruct (validateBirdInputs itemWeights usersToItems); [done|].
    apply bindE_Val in H as ([ss [e|]] & _ & H); [done|].
    by apply bindE_Val in H as (? & _ & ?).
  - intros b query r r' items referrers -> Hrun.
    apply NewBird_BirdAt in H as (_ & Hcfg & _).
    apply Process_Val in Hrun. rewrite Hcfg in Hrun. simpl in Hrun. lia.
Qed.

Lemma NewBirdCfg_accepted_witness :
  BirdAt (chain_bird NewBirdCfg zeroes) <> NilBird /\
  forall b query r r' items referrers,
    BirdAt (chain_bird NewBirdCfg zeroes) = BirdAt b ->
    Process b query r = Val ((items, referrers, None), r') ->
    length items = 1000%nat /\ length referrers = 1000%nat.
Proof.
  apply (NewBirdCfg_accepted zeroes [1%float; 1%float; 1%float] chain_graph
           (BirdAt (chain_bird NewBirdCfg zeroes)) None).
  vm_compute; reflexivity.
Defined.

(** ** When [Process] misses an index *)

Lemma queryWeights_Panic (b : Bird) (before after : list QueryItem)
    (q : QueryItem) :
  Forall (fun q => 0 <= Item q < Z.of_nat (length (ItemWeights b))) before ->
  Item q < 0 \/ Z.of_nat (length (ItemWeights b)) <= Item q ->
  queryWeights b (before ++ q :: after) =
  Panic (IndexOutOfRange (Item q) (length (ItemWeights b))).
Proof.
  intros Hbefore Hq. unfold queryWeights.
  induction Hbefore as [|q' before Hq' _ IH]; simpl.
  - destruct (index (ItemWeights b) (Item q)) as [w|p] eqn:Hw.
    + apply index_Val_range in Hw. lia.
    + by apply index_Panic_range in Hw as [_ ->].
  - destruct (index_in_range (ItemWeights b) (Item q') Hq') as [w ->]. simpl.
    by rewrite IH.
Qed.

Lemma first_out_of_range (n : Z) (query : list QueryItem) :
  Exists (fun q => Item q < 0 \/ n <= Item q) query ->
  exists before q after,
    query = before ++ q :: after /\
    Forall (fun q => 0 <= Item q < n) before /\
    (Item q < 0 \/ n <= Item q).
Proof.
  induction query as [|q0 query IH]; intros Hex; [by inversion Hex|].
  destruct (decide (0 <= Item q0 < n)) as [Hin|Hout].
  - apply Exists_cons in Hex as [?|Hex]; [lia|].
    destruct (IH Hex) as (before & q & after & -> & Hbefore & Hq).
    exists (q0 :: before), q, after. repeat split; [by constructor | done].
  - exists [], q0, query. repeat split; [constructor | lia].
Qed.

(** X12.  On a walker that [NewBird] built, [Process] raises an
    index-out-of-range panic exactly when some item index of the query is
    negative or at least [len(ItemWeights)]; the panic is that of the first
    such item of the query, raised at [ItemWeights[q.Item]] before anything
    is allocated for the seeds or drawn. *)
Theorem Process_index_panic_iff (randSource : Rand) (cfg : BirdCfg)
    (itemWeights : list float) (usersToItems : list (list Z)) (b : Bird)
    (query : list QueryItem) (r : Rand) :
  NewBird randSource cfg itemWeights usersToItems = Val (BirdAt b, None) ->
  ((exists i len, Process b query r = Panic (IndexOutOfRange i len)) <->
   Exists (fun q => Item q < 0 \/ Z.of_nat (length itemWeights) <= Item q)
          query) /\
  (forall before q after,
     query = before ++ q :: after ->
     Forall (fun q => 0 <= Item q < Z.of_nat (length itemWeights)) before ->
     Item q < 0 \/ Z.of_nat (length itemWeights) <= Item q ->
     Process b query r = Panic (IndexOutOfRange (Item q) (length itemWeights))).
Proof.
  intros Hnew. pose proof (NewBird_ok _ _ _ _ _ _ Hnew) as Hok.
  apply NewBird_BirdAt in Hnew as (_ & _ & <- & _).
  assert (forall before q after,
     query = before ++ q :: after ->
     Forall (fun q => 0 <= Item q < Z.of_nat (length (ItemWeights b))) before ->
     Item q < 0 \/ Z.of_nat (length (ItemWeights b)) <= Item q ->
     Process b query r =
     Panic (IndexOutOfRange (Item q) (length (ItemWeights b)))) as Hfirst.
  { intros before q after -> Hbefore Hq. unfold Process.
    destruct (Nat.eqb_spec (length (before ++ q :: after)) 0) as [Hlen|_].
    { rewrite length_app in Hlen. simpl in Hlen. lia. }
    unfold bind, sampleItemsFromQuery, bind, liftE.
    by rewrite (queryWeights_Panic b before after q Hbefore Hq). }
  split; [|exact Hfirst]. split.
  - intros (i & len & Hp).
    destruct (decide (Forall (fun q => 0 <= Item q
                                < Z.of_nat (length (ItemWeights b))) query))
      as [Hall|Hnot].
    + by destruct (Process_no_index_panic b query r i len Hok Hall).
    + apply not_Forall_Exists in Hnot; [|intros q; apply _].
      eapply Exists_impl; [exact Hnot|]. simpl. intros q Hq. lia.
  - intros Hex.
    destruct (first_out_of_range _ _ Hex) as (before & q & after & Hq & Hb & Ho).
    eexists _, _. by apply (Hfirst before q after).
Qed.

Lemma Process_index_panic_iff_witness :
  let b := chain_bird (mkBirdCfg 2 3) zeroes in
  let query := [mkQueryItem 1 1%float; mkQueryItem (-4) 1%float;
                mkQueryItem 7 1%float] in
  ((exists i len, Process b query ones = Panic (IndexOutOfRange i len)) <->
   Exists (fun q => Item q < 0 \/ 3 <= Item q) query) /\
  (forall before q after,
     query = before ++ q :: after ->
     Forall (fun q => 0 <= Item q < 3) before ->
     Item q < 0 \/ 3 <= Item q ->
     Process b query ones = Panic (IndexOutOfRange (Item q) 3)).
Proof.
  assert (NewBird zeroes (mkBirdCfg 2 3) [1%float; 1%float; 1%float] chain_graph
          = Val (BirdAt (chain_bird (mkBirdCfg 2 3) zeroes), None)) as Hnew
    by (vm_compute; reflexivity).
  exact (Process_index_panic_iff _ _ _ _ _
           [mkQueryItem 1 1%float; mkQueryItem (-4) 1%float;
            mkQueryItem 7 1%float] ones Hnew).
Defined.

Example Process_panics_on_first_bad_item :
  Process (chain_bird (mkBirdCfg 2 3) zeroes)
          [mkQueryItem 1 1%float; mkQueryItem (-4) 1%float;
           mkQueryItem 7 1%float] ones
  = Panic (IndexOutOfRange (-4) 3).
Proof. reflexivity. Qed.

(** ** The verdict of [validateBirdInputs] *)

(** X13.  [validateBirdInputs] reports the first of three defects, in this
    order: no item weights; no users; an item index at or above
    [len(itemWeights)].  It returns nil exactly when there are weights and
    users and every item index is below [len(itemWeights)]; it does not look
    at the sign of an index. *)
Theorem validateBirdInputs_verdict (itemWeights : list float)
    (usersToItems : list (list Z)) :
  match validateBirdInputs itemWeights usersToItems with
  | None =>
      itemWeights <> [] /\ usersToItems <> [] /\
      Forall (Forall (fun item => item < Z.of_nat (length itemWeights)))
             usersToItems
  | Some e =>
      (itemWeights = [] /\ e = New "empty slice of item weights") \/
      (itemWeights <> [] /\ usersToItems = [] /\
       e = New "empty users to items adjacency table") \/
      (itemWeights <> [] /\ usersToItems <> [] /\
       e = New "UsersToItems references more items itemWeights" /\
       exists userItems item,
         userItems ∈ usersToItems /\ item ∈ userItems /\
         Z.of_nat (length itemWeights) <= item)
  end.
Proof.
  destruct (validateBirdInputs itemWeights usersToItems) as [e|] eqn:Hv;
    [|by apply validateBirdInputs_None].
  pose proof (validateBirdInputs_Some _ _ _ Hv) as Hwhy.
  unfold validateBirdInputs in Hv.
  destruct itemWeights as [|w ws]; [left; simpl in Hv; by simplify_eq|].
  destruct usersToItems as [|c cs]; [right; left; simpl in Hv; by simplify_eq|].
  right. right.
  change (length (w :: ws) =? 0)%nat with false in Hv.
  change (length (c :: cs) =? 0)%nat with false in Hv. cbv iota zeta in Hv.
  destruct (_ <=? _); [|done]. simplify_eq.
  destruct Hwhy as [?|[?|?]]; [done | done | by repeat split].
Qed.

Example validateBirdInputs_accepts_negative_item :
  validateBirdInputs [1%float; 1%float] [[0; -7]; [1]] = None.
Proof. reflexivity. Qed.

Example validateBirdInputs_reports_weights_first :
  validateBirdInputs [] [] = Some (New "empty slice of item weights").
Proof. reflexivity. Qed.
